(** * Request ingestion of the command server (server/req.c)

    A shallow embedding of [req.c]: the loaders that turn a parsed JSON
    document into a [ReqCmd], the receiver of file descriptors over the
    companion socket, the release routines, and the driver [RecvReq].

    The C code works on a heap of [malloc]ed blocks, writes diagnostics to
    [stderr], reads control messages from the socket [FdTubeFd] and documents
    from the stream [TubeFile].  All of these are components of an explicit
    [world]; a C function becomes a computation in the monad [M], which
    threads the world and has one failure: undefined behaviour of the C
    program (a read, write or [free] through a pointer that is not a live
    block of the right shape).

    Conventions of the data model:
    - allocation never fails ([malloc], [calloc], [strdup] return a live
      block, never [NULL]), and a size always fits the C [int] it is stored
      in;
    - the text of a JSON string holds no NUL byte ([json_loadf] is called
      without [JSON_ALLOW_NUL]), so the C string that [json_string_value]
      yields is the whole text. *)

From Stdlib Require Import Ascii.
From stdpp Require Import gmap strings list fin_maps pretty.

#[local] Set Warnings "-clear-no-such-hyp".

Open Scope Z_scope.

(** ** Parsed documents (jansson's [json_t]) *)

(** The eight jansson value types.  An object lists its members in the
    order in which [json_object_foreach] enumerates them. *)
#[warnings="-register-all"]
Inductive json : Type :=
| JObject (members : list (string * json))
| JArray (elems : list json)
| JString (text : string)
| JInteger (n : Z)
| JReal (lexeme : string)
| JTrue
| JFalse
| JNull.

Definition json_is_object (j : json) : bool :=
  match j with JObject _ => true | _ => false end.

Definition json_is_array (j : json) : bool :=
  match j with JArray _ => true | _ => false end.

Definition json_is_string (j : json) : bool :=
  match j with JString _ => true | _ => false end.

Definition json_is_boolean (j : json) : bool :=
  match j with JTrue | JFalse => true | _ => false end.

Definition json_is_true (j : json) : bool :=
  match j with JTrue => true | _ => false end.

Definition json_string_value (j : json) : string :=
  match j with JString s => s | _ => EmptyString end.

Definition json_array_elems (j : json) : list json :=
  match j with JArray l => l | _ => [] end.

Definition json_array_size (j : json) : nat := length (json_array_elems j).

Definition json_object_members (j : json) : list (string * json) :=
  match j with JObject ms => ms | _ => [] end.

Definition json_object_size (j : json) : nat := length (json_object_members j).

(** [json_object_get]: the value stored under [key], if any. *)
Fixpoint assoc_get (ms : list (string * json)) (key : string) : option json :=
  match ms with
  | [] => None
  | (k, v) :: ms' => if String.eqb k key then Some v else assoc_get ms' key
  end.

Definition json_object_get (j : json) (key : string) : option json :=
  assoc_get (json_object_members j) key.

(** ** The heap *)

Definition addr : Type := nat.
Definition NULL : addr := 0%nat.

(** Modelled from the spec: the request types are declared in req.h, which
    is not among the sources.  A request is a [Cmd] or an [Exit]; both
    structures start with the [type] field, the [Exit] one has no other. *)
Inductive ReqType : Type := REQ_TYPE_CMD | REQ_TYPE_EXIT.

(** Modelled from the spec: [struct ReqCmd] of req.h, with the fields that
    req.c reads and writes; they are the fields of the spec's [Cmd]. *)
Record ReqCmd : Type := mkReqCmd {
  type : ReqType;
  path : addr;
  argv : addr;
  envp : addr;
  redirInput : Z;
  redirOutput : Z;
  input : Z;
  output : Z;
}.

Definition set_path (v : addr) (c : ReqCmd) : ReqCmd :=
  mkReqCmd (type c) v (argv c) (envp c) (redirInput c) (redirOutput c) (input c) (output c).
Definition set_argv (v : addr) (c : ReqCmd) : ReqCmd :=
  mkReqCmd (type c) (path c) v (envp c) (redirInput c) (redirOutput c) (input c) (output c).
Definition set_envp (v : addr) (c : ReqCmd) : ReqCmd :=
  mkReqCmd (type c) (path c) (argv c) v (redirInput c) (redirOutput c) (input c) (output c).
Definition set_redirInput (v : Z) (c : ReqCmd) : ReqCmd :=
  mkReqCmd (type c) (path c) (argv c) (envp c) v (redirOutput c) (input c) (output c).
Definition set_redirOutput (v : Z) (c : ReqCmd) : ReqCmd :=
  mkReqCmd (type c) (path c) (argv c) (envp c) (redirInput c) v (input c) (output c).
Definition set_input (v : Z) (c : ReqCmd) : ReqCmd :=
  mkReqCmd (type c) (path c) (argv c) (envp c) (redirInput c) (redirOutput c) v (output c).
Definition set_output (v : Z) (c : ReqCmd) : ReqCmd :=
  mkReqCmd (type c) (path c) (argv c) (envp c) (redirInput c) (redirOutput c) (input c) v.

(** A live block: the characters of a C string, an array of [char*]
    cells, or one of the two request structures. *)
Inductive block : Type :=
| BChars (s : string)
| BPtrs (cells : list addr)
| BReqCmd (c : ReqCmd)
| BReqExit (t : ReqType).

(** ** The world around the program *)

(** What one [recvmsg] call on the companion socket delivers: its return
    value ([-1] on a transport error), the [msg_controllen] it leaves in the
    message header and the [int] found at [CMSG_DATA] of the control buffer. *)
Record recvmsg_result : Type := mkRecv {
  recv_ret : Z;
  recv_controllen : Z;
  recv_cmsg_data : Z;
}.

(** The control stream: the bytes not yet read and the end-of-file
    indicator that [feof] tests. *)
Record FILE : Type := mkFILE {
  unread : string;
  eof_indicator : bool;
}.

(** What the program works on: the heap, what it has written to [stderr],
    the messages still to come on the companion socket [FdTubeFd], the
    descriptors that control messages have installed in the process, and
    the control stream [TubeFile] (both declared in tube.h). *)
Record world : Type := mkWorld {
  heap : gmap addr block;
  stderr : list string;
  FdTubeFd : list recvmsg_result;
  open_fds : list Z;
  TubeFile : FILE;
}.

Definition set_heap (h : gmap addr block) (w : world) : world :=
  mkWorld h (stderr w) (FdTubeFd w) (open_fds w) (TubeFile w).

Definition set_stderr (l : list string) (w : world) : world :=
  mkWorld (heap w) l (FdTubeFd w) (open_fds w) (TubeFile w).

(** ** The monad of C computations *)

Definition M (A : Type) : Type := world → option (A * world).

#[global] Instance M_ret : MRet M := λ A a w, Some (a, w).

#[global] Instance M_bind : MBind M := λ A B f m w,
  match m w with
  | Some (a, w') => f a w'
  | None => None
  end.

(** Undefined behaviour. *)
Definition fault {A : Type} : M A := λ _, None.

(** An address [malloc] may hand out: not [NULL] and not live. *)
Definition malloc_addr (h : gmap addr block) : addr := fresh ({[NULL]} ∪ dom h).

Definition malloc (b : block) : M addr := λ w,
  let p := malloc_addr (heap w) in
  Some (p, set_heap (<[p:=b]> (heap w)) w).

Definition free (p : addr) : M unit := λ w,
  if decide (p = NULL) then Some (tt, w)
  else match heap w !! p with
       | Some _ => Some (tt, set_heap (delete p (heap w)) w)
       | None => None
       end.

Definition load (p : addr) : M block := λ w,
  match heap w !! p with
  | Some b => Some (b, w)
  | None => None
  end.

Definition store (p : addr) (b : block) : M unit := λ w,
  match heap w !! p with
  | Some _ => Some (tt, set_heap (<[p:=b]> (heap w)) w)
  | None => None
  end.

(** [q[i]] and [q[i] = v] on an array of [char*]. *)
Definition load_cell (p : addr) (i : nat) : M addr :=
  b ← load p;
  match b with
  | BPtrs cells =>
      match cells !! i with
      | Some q => mret q
      | None => fault
      end
  | _ => fault
  end.

Definition store_cell (p : addr) (i : nat) (v : addr) : M unit :=
  b ← load p;
  match b with
  | BPtrs cells =>
      if decide (i < length cells)%nat then store p (BPtrs (<[i:=v]> cells))
      else fault
  | _ => fault
  end.

Definition load_cmd (p : addr) : M ReqCmd :=
  b ← load p;
  match b with
  | BReqCmd c => mret c
  | _ => fault
  end.

Definition update_cmd (p : addr) (f : ReqCmd → ReqCmd) : M unit :=
  c ← load_cmd p; store p (BReqCmd (f c)).

(** [stderr] is kept as the list of the strings written to it, oldest
    first; [LF] is the newline that ends each diagnostic. *)
Definition LF : string := String "010"%char EmptyString.

Definition fprintf_stderr (s : string) : M unit := λ w,
  Some (tt, set_stderr (stderr w ++ [s]) w).

Definition strdup (s : string) : M addr := malloc (BChars s).

(** Modelled from the spec: [alloc(T, n)] is a macro of common.h, which is
    not among the sources.  It hands out [n] zero-filled objects of type [T]
    (as [calloc] does): the data model of the spec has sequences with no
    absent element before their end, [freeStrings] is run on arrays that
    [loadArgv] has only partly filled, and [freeReqCmd] tests fields that
    [newReqCmd] never assigns. *)
Definition alloc_ptrs (n : nat) : M addr := malloc (BPtrs (replicate n NULL)).

(** ** req.c *)

(** [for (q = p; *q; q++) free( *q);] from cell [i] on; the block at [p] is
    read again at every turn, and reading past its end is a fault.  [fuel]
    only bounds the recursion: [freeStrings] gives one more than the number
    of cells. *)
Fixpoint freeStrings_loop (fuel : nat) (p : addr) (i : nat) : M unit :=
  match fuel with
  | O => fault
  | S fuel' =>
      q ← load_cell p i;
      if decide (q = NULL) then mret tt
      else free q;; freeStrings_loop fuel' p (S i)
  end.

Definition freeStrings (p : addr) : M unit :=
  b ← load p;
  match b with
  | BPtrs cells => freeStrings_loop (S (length cells)) p 0;; free p
  | _ => fault
  end.

Definition freeReqCmd (p : addr) : M unit :=
  c ← load_cmd p;
  (if decide (path c = NULL) then mret tt else free (path c));;
  (if decide (argv c = NULL) then mret tt else freeStrings (argv c));;
  (if decide (envp c = NULL) then mret tt else freeStrings (envp c));;
  free p.

Definition freeReqExit (p : addr) : M unit := free p.

(** The [type] field sits first in both structures. *)
Definition load_type (p : addr) : M ReqType :=
  b ← load p;
  match b with
  | BReqCmd c => mret (type c)
  | BReqExit t => mret t
  | _ => fault
  end.

Definition FreeReq (p : addr) : M unit :=
  t ← load_type p;
  match t with
  | REQ_TYPE_CMD => freeReqCmd p
  | REQ_TYPE_EXIT => freeReqExit p
  end.

(** ** [printReqCmd] *)

(** [printf("%s", p)] reads the string at [p]; a pointer that is not a
    live string is a fault. *)
Definition load_string (p : addr) : M string :=
  b ← load p;
  match b with
  | BChars s => mret s
  | _ => fault
  end.

(** [for (a = cmd->argv; *a; a++) printf("      %s\n", *a);] from cell [i]
    on: the lines it writes. *)
Fixpoint printReqCmd_loop (fuel : nat) (p : addr) (i : nat) : M (list string) :=
  match fuel with
  | O => fault
  | S fuel' =>
      q ← load_cell p i;
      if decide (q = NULL) then mret []
      else
        s ← load_string q;
        rest ← printReqCmd_loop fuel' p (S i);
        mret (("      " +:+ s +:+ LF) :: rest)
  end.

(** [printReqCmd]: the result is what the call writes to [stdout], line by
    line. *)
Definition printReqCmd (cmd : addr) : M (list string) :=
  c ← load_cmd cmd;
  path_s ← load_string (path c);
  b ← load (argv c);
  match b with
  | BPtrs cells =>
      lines ← printReqCmd_loop (S (length cells)) (argv c) 0;
      mret (("path: " +:+ path_s +:+ LF) :: ("args:" +:+ LF) :: lines)
  | _ => fault
  end.

Definition loadString (root : json) : M addr :=
  if negb (json_is_string root) then
    fprintf_stderr ("string" +:+ LF);; mret NULL
  else strdup (json_string_value root).

(** The loop of [loadArgv]: [args] are the elements from index [i] on. *)
Fixpoint loadArgv_loop (args : list json) (argv : addr) (i : nat) : M addr :=
  match args with
  | [] => mret argv
  | arg :: args' =>
      if negb (json_is_string arg) then
        fprintf_stderr ("argv element not string" +:+ LF);;
        freeStrings argv;;
        mret NULL
      else
        s ← strdup (json_string_value arg);
        store_cell argv i s;;
        loadArgv_loop args' argv (S i)
  end.

Definition loadArgv (root : json) : M addr :=
  if negb (json_is_array root) then
    fprintf_stderr ("argv not array" +:+ LF);; mret NULL
  else
    let n := json_array_size root in
    argv ← alloc_ptrs (n + 1);
    loadArgv_loop (json_array_elems root) argv 0.

(** The loop of [loadEnvp]: [members] are the pairs still to be
    enumerated, [i] the running index. *)
Fixpoint loadEnvp_loop (members : list (string * json)) (envp : addr) (i : nat)
    : M addr :=
  match members with
  | [] => mret envp
  | (key, value) :: members' =>
      if negb (json_is_string value) then
        fprintf_stderr ("envp value not object" +:+ LF);;
        freeStrings envp;;
        mret NULL
      else
        let value_s := json_string_value value in
        s ← malloc (BChars (key +:+ "=" +:+ value_s));
        store_cell envp i s;;
        loadEnvp_loop members' envp (S i)
  end.

Definition loadEnvp (root : json) : M addr :=
  if negb (json_is_object root) then
    fprintf_stderr ("envp not object" +:+ LF);; mret NULL
  else
    let n := json_object_size root in
    envp ← alloc_ptrs (n + 1);
    loadEnvp_loop (json_object_members root) envp 0.

(** [alloc(ReqCmd, 1)] gives a zero-filled structure (see [alloc_ptrs]). *)
Definition newReqCmd : M addr :=
  malloc (BReqCmd (mkReqCmd REQ_TYPE_CMD NULL NULL NULL 0 0 0 0)).

(** [CMSG_LEN(sizeof(int))] with the Linux LP64 layout: a 16-byte
    [struct cmsghdr] followed by the payload. *)
Definition CMSG_LEN (len : Z) : Z := 16 + len.
Definition CONTROLLEN : Z := CMSG_LEN 4.

(** One [recvmsg(FdTubeFd, &msg, 0)].  When the peer has nothing more to
    send and has shut the socket down, the call returns 0 with no control
    data.  A control message long enough to carry a descriptor installs it
    in this process. *)
Definition recvmsg : M recvmsg_result := λ w,
  match FdTubeFd w with
  | [] => Some (mkRecv 0 0 0, w)
  | r :: rest =>
      let fds :=
        if decide (recv_ret r ≠ -1 ∧ CONTROLLEN ≤ recv_controllen r)
        then open_fds w ++ [recv_cmsg_data r] else open_fds w in
      Some (r, mkWorld (heap w) (stderr w) rest fds (TubeFile w))
  end.

(** Modelled from the spec: [Check_1(name, call)] is a macro of common.h,
    which is not among the sources.  The spec has a receive that fails at
    the transport level make the whole receive fail with no usable
    descriptor: when [call] yields [-1] the enclosing function returns [-1],
    otherwise it goes on with [rest]. *)
Definition Check_1 (name : string) (ret : Z) (rest : M Z) : M Z :=
  if decide (ret = -1) then mret (-1) else rest.

(** The control buffer [cmsg] is scratch storage of this one call, obtained
    at entry and given back before the [return] at the end; what becomes of
    it when [Check_1] leaves the function is up to that macro.  It is not
    tracked in the heap. *)
Definition recvFd : M Z :=
  fprintf_stderr ("Waiting for a fd" +:+ LF);;
  r ← recvmsg;
  Check_1 "recvmsg" (recv_ret r) (
    fprintf_stderr ("Got a fd" +:+ LF);;
    if decide (recv_controllen r < CONTROLLEN) then
      fprintf_stderr ("Got control message of length " +:+ pretty (recv_controllen r)
                      +:+ ", expected at least " +:+ pretty CONTROLLEN +:+ LF);;
      mret (-1)
    else mret (recv_cmsg_data r)).

Definition recvFds (cmd : addr) : M Z :=
  c ← load_cmd cmd;
  failed_in ←
    (if decide (redirInput c ≠ 0) then
       fd ← recvFd;
       update_cmd cmd (set_input fd);;
       mret (bool_decide (fd < 0))
     else mret false);
  if (failed_in : bool) then mret (-1)
  else
    c ← load_cmd cmd;
    failed_out ←
      (if decide (redirOutput c ≠ 0) then
         fd ← recvFd;
         update_cmd cmd (set_output fd);;
         mret (bool_decide (fd < 0))
       else mret false);
    if (failed_out : bool) then mret (-1) else mret 0.

(** [json_unpack_ex(root, 0, JSON_STRICT, "{ss so so sb sb}", "Path", &path,
    "Args", &args, "Env", &env, "RedirInput", &cmd->redirInput,
    "RedirOutput", &cmd->redirOutput)].  The keys are looked up in the order
    of the format; [s] wants a string, [b] a boolean, [o] takes any value;
    a flag is stored as soon as it is unpacked.  [JSON_STRICT] then wants
    the object to have no key besides the five unpacked ones.  [None] is
    jansson's error return. *)
Definition unpack_s (v : json) : option string :=
  match v with JString s => Some s | _ => None end.

Definition unpack_b (v : json) : option Z :=
  if json_is_boolean v then Some (if json_is_true v then 1 else 0) else None.

Definition json_unpack_ex_Cmd (root : json) (cmd : addr)
    : M (option (string * json * json)) :=
  if negb (json_is_object root) then mret None else
  match json_object_get root "Path" ≫= unpack_s with
  | None => mret None
  | Some path_ =>
  match json_object_get root "Args" with
  | None => mret None
  | Some args =>
  match json_object_get root "Env" with
  | None => mret None
  | Some env =>
  match json_object_get root "RedirInput" ≫= unpack_b with
  | None => mret None
  | Some ri =>
  update_cmd cmd (set_redirInput ri);;
  match json_object_get root "RedirOutput" ≫= unpack_b with
  | None => mret None
  | Some ro =>
  update_cmd cmd (set_redirOutput ro);;
  if decide (json_object_size root = 5%nat) then mret (Some (path_, args, env))
  else mret None
  end end end end end.

(** The chain of [&&] that computes [success] stops at the first operand
    that fails; every way out of it but the last runs [freeReqCmd]. *)
Definition loadReqCmd (root : json) : M addr :=
  cmd ← newReqCmd;
  let abandon : M addr := freeReqCmd cmd;; mret NULL in
  u ← json_unpack_ex_Cmd root cmd;
  match u with
  | None => abandon
  | Some (path_, args, env) =>
      a ← loadArgv args;
      update_cmd cmd (set_argv a);;
      if decide (a = NULL) then abandon else
      e ← loadEnvp env;
      update_cmd cmd (set_envp e);;
      if decide (e = NULL) then abandon else
      r ← recvFds cmd;
      if decide (r ≠ 0) then abandon else
      p ← strdup path_;
      update_cmd cmd (set_path p);;
      mret cmd
  end.

Definition newReqExit : M addr := malloc (BReqExit REQ_TYPE_EXIT).

(** [json_object_foreach] enters its body with the first enumerated member;
    both branches of the body return, so no later member is looked at. *)
Definition loadReq (root : json) : M addr :=
  if negb (json_is_object root) then
    fprintf_stderr ("req not object" +:+ LF);; mret NULL
  else
    match json_object_members root with
    | (key, value) :: _ =>
        if String.eqb key "Cmd" then loadReqCmd value
        else fprintf_stderr ("bad req type " +:+ key +:+ LF);; mret NULL
    | [] => fprintf_stderr ("empty req" +:+ LF);; mret NULL
    end.

(** [json_error_t], with the two fields that [RecvReq] prints. *)
Record json_error_t : Type := mkJsonError {
  line : Z;
  text : string;
}.

Definition feof (f : FILE) : bool := eof_indicator f.

Section Driver.

(** [json_loadf(TubeFile, JSON_DISABLE_EOF_CHECK, &error)]: jansson's
    parser, an external library.  It reads from the stream, which it
    leaves in a new state, and yields a document or an error. *)
Variable json_loadf : FILE → FILE * (json_error_t + json).

Definition json_loadf_TubeFile : M (json_error_t + json) := λ w,
  let '(f, r) := json_loadf (TubeFile w) in
  Some (r, mkWorld (heap w) (stderr w) (FdTubeFd w) (open_fds w) f).

Definition get_TubeFile : M FILE := λ w, Some (TubeFile w, w).

(** [RecvReq(char **err)]: the result is the request together with what
    the call has stored into [*err], if anything. *)
Definition RecvReq : M (addr * option addr) :=
  f ← get_TubeFile;
  if feof f then
    r ← newReqExit; mret (r, None)
  else
    root ← json_loadf_TubeFile;
    match root with
    | inl error =>
        e ← malloc (BChars ("json: error on line " +:+ pretty (line error)
                            +:+ ": " +:+ text error));
        mret (NULL, Some e)
    | inr root =>
        cmd ← loadReq root;
        if decide (cmd = NULL) then
          e ← strdup "json: command doesn't conform to schema";
          mret (cmd, Some e)
        else mret (cmd, None)
    end.

End Driver.

(** * Specification vocabulary *)

(** ** Heaps that grow by fresh blocks *)

(** [extends h L h']: [h'] is [h] together with live blocks at the addresses
    of [L], none of which is live in [h]. *)
Definition extends (h : gmap addr block) (L : list addr) (h' : gmap addr block) : Prop :=
  h ⊆ h' ∧ dom h' = dom h ∪ list_to_set L ∧ ∀ x, x ∈ L → h !! x = None.

(** [vector_at h a ps ss rest]: the block at [a] is an array of cells
    [ps ++ rest], where the [ps] are distinct live strings with the texts
    [ss], none of them [NULL] or [a] itself. *)
Record vector_at (h : gmap addr block) (a : addr) (ps : list addr)
    (ss : list string) (rest : list addr) : Prop := mk_vector_at {
  vec_block : h !! a = Some (BPtrs (ps ++ rest));
  vec_NoDup : NoDup (a :: ps);
  vec_nonnull : NULL ∉ a :: ps;
  vec_strings : Forall2 (λ p s, h !! p = Some (BChars s)) ps ss;
}.

(** The cells [ps] point to strings with the texts [ss]. *)
Definition strings_in (h : gmap addr block) (ps : list addr) (ss : list string) : Prop :=
  Forall2 (λ p s, h !! p = Some (BChars s)) ps ss.

(** The invariant of the two loader loops: over the heap [h0] in which the
    loader was entered, the array [a] and the strings converted so far are
    the only new blocks. *)
Definition building (h0 h : gmap addr block) (a : addr) (ps : list addr)
    (ss : list string) (rest : list addr) : Prop :=
  extends h0 (a :: ps) h ∧ vector_at h a ps ss rest.

(** ** The loaders *)

(** The diagnostics of the two loops. *)
Definition argv_diag : string := "argv element not string" +:+ LF.

Definition envp_diag : string := "envp value not object" +:+ LF.

(** Every value of the mapping is a string. *)
Definition env_values_ok (members : list (string * json)) : bool :=
  forallb (λ kv, json_is_string kv.2) members.

(** The entry that [loadEnvp] builds for a pair. *)
Definition env_entry (kv : string * json) : string :=
  kv.1 +:+ "=" +:+ json_string_value kv.2.

(** ** The receiver *)

(** What the next [recvmsg] on the companion socket delivers. *)
Definition next_recvmsg (w : world) : recvmsg_result :=
  match FdTubeFd w with
  | [] => mkRecv 0 0 0
  | r :: _ => r
  end.

(** A receive carries a descriptor when the call succeeded and the control
    message has room for one. *)
Definition carries_fd (r : recvmsg_result) : Prop :=
  recv_ret r ≠ -1 ∧ CONTROLLEN ≤ recv_controllen r.

#[global] Instance carries_fd_dec r : Decision (carries_fd r).
Proof. unfold carries_fd. apply _. Defined.

(** What [recvFd] returns, writes to [stderr] and leaves behind when
    [recvmsg] delivers [r]. *)
Definition recvFd_value (r : recvmsg_result) : Z :=
  if decide (carries_fd r) then recv_cmsg_data r else -1.

Definition short_diag (r : recvmsg_result) : string :=
  "Got control message of length " +:+ pretty (recv_controllen r)
  +:+ ", expected at least " +:+ pretty CONTROLLEN +:+ LF.

Definition recvFd_log (r : recvmsg_result) : list string :=
  if decide (recv_ret r = -1) then ["Waiting for a fd" +:+ LF]
  else if decide (recv_controllen r < CONTROLLEN)
       then ["Waiting for a fd" +:+ LF; "Got a fd" +:+ LF; short_diag r]
       else ["Waiting for a fd" +:+ LF; "Got a fd" +:+ LF].

Definition recvFd_world (w : world) : world :=
  let r := next_recvmsg w in
  mkWorld (heap w) (stderr w ++ recvFd_log r) (tail (FdTubeFd w))
          (if decide (carries_fd r) then open_fds w ++ [recv_cmsg_data r] else open_fds w)
          (TubeFile w).

(** The world after a receive whose result was stored into the structure. *)
Definition stored (cmd : addr) (c : ReqCmd) (w : world) : world :=
  set_heap (<[cmd := BReqCmd c]> (heap w)) (recvFd_world w).

(** Every descriptor the structure asks for has been received: it is a
    descriptor (not negative) that a control message has installed. *)
Definition fds_received (c : ReqCmd) (w : world) : Prop :=
  (redirInput c ≠ 0 → 0 ≤ input c ∧ input c ∈ open_fds w) ∧
  (redirOutput c ≠ 0 → 0 ≤ output c ∧ output c ∈ open_fds w).

(** The pointer fields and the flags are as before. *)
Definition same_but_fds (c c' : ReqCmd) : Prop :=
  type c' = type c ∧ path c' = path c ∧ argv c' = argv c ∧ envp c' = envp c ∧
  redirInput c' = redirInput c ∧ redirOutput c' = redirOutput c.

(** ** Commands in the heap *)

(** What a pointer field of the structure owns: nothing when it is [NULL],
    else the block it points to (and, for a vector, its strings). *)
Definition owned_string (h : gmap addr block) (p : addr) (L : list addr) : Prop :=
  (p = NULL ∧ L = []) ∨ (p ≠ NULL ∧ is_Some (h !! p) ∧ L = [p]).

Definition owned_vector (h : gmap addr block) (a : addr) (L : list addr) : Prop :=
  (a = NULL ∧ L = []) ∨ (∃ ps ss, vector_at h a ps ss [NULL] ∧ L = a :: ps).

(** The blocks of a command, the latest allocated first. *)
Definition footprint (cmd : addr) (LP LA LE : list addr) : list addr :=
  LP ++ LE ++ LA ++ [cmd].

(** [partial_cmd h0 h cmd c LP LA LE]: over [h0], the heap [h] holds the
    structure [c] at [cmd] and what its pointer fields own: [LP] for
    [path], [LA] for [argv], [LE] for [envp]; a field that is still [NULL]
    owns nothing. *)
Record partial_cmd (h0 h : gmap addr block) (cmd : addr) (c : ReqCmd)
    (LP LA LE : list addr) : Prop := mk_partial_cmd {
  pc_block : h !! cmd = Some (BReqCmd c);
  pc_nonnull : cmd ≠ NULL;
  pc_path : owned_string h (path c) LP;
  pc_argv : owned_vector h (argv c) LA;
  pc_envp : owned_vector h (envp c) LE;
  pc_NoDup : NoDup (footprint cmd LP LA LE);
  pc_extends : extends h0 (footprint cmd LP LA LE) h;
}.

(** What [json_unpack_ex] extracts, as a function of the document alone. *)
Definition Cmd_fields (root : json) : option (string * json * json * Z * Z) :=
  if json_is_object root then
    path_ ← json_object_get root "Path" ≫= unpack_s;
    args ← json_object_get root "Args";
    env ← json_object_get root "Env";
    ri ← json_object_get root "RedirInput" ≫= unpack_b;
    ro ← json_object_get root "RedirOutput" ≫= unpack_b;
    if decide (json_object_size root = 5%nat) then Some (path_, args, env, ri, ro)
    else None
  else None.

(** An array of strings; an object whose values are strings. *)
Definition argv_ok (args : json) : bool :=
  json_is_array args && forallb json_is_string (json_array_elems args).

Definition envp_ok (env : json) : bool :=
  json_is_object env && env_values_ok (json_object_members env).

(** The command a document decodes to, before any descriptor is received:
    the path, the arguments, the environment pairs and the two flags. *)
Definition Cmd_decode (root : json)
    : option (string * list json * list (string * json) * Z * Z) :=
  match Cmd_fields root with
  | Some (path_, args, env, ri, ro) =>
      if argv_ok args && envp_ok env
      then Some (path_, json_array_elems args, json_object_members env, ri, ro)
      else None
  | None => None
  end.

(** A complete command at [cmd]: the structure, the copy of the path and
    the two vectors, all of them blocks that [h0] does not have. *)
Record ReqCmd_at (h0 h : gmap addr block) (cmd : addr) (c : ReqCmd)
    (ps qs : list addr) (path_ : string) (args envs : list string) : Prop :=
  mk_ReqCmd_at {
  rc_owned : partial_cmd h0 h cmd c [path c] (argv c :: ps) (envp c :: qs);
  rc_type : type c = REQ_TYPE_CMD;
  rc_path : h !! path c = Some (BChars path_);
  rc_argv : vector_at h (argv c) ps args [NULL];
  rc_envp : vector_at h (envp c) qs envs [NULL];
}.

(** All the blocks of a complete command. *)
Definition blocks_of (cmd : addr) (c : ReqCmd) (ps qs : list addr) : list addr :=
  cmd :: path c :: (argv c :: ps) ++ (envp c :: qs).

(** ** The schema of a command document *)

(** The document has a field [key] whose value passes [ty]. *)
Definition has_field (doc : json) (key : string) (ty : json → bool) : bool :=
  match json_object_get doc key with
  | Some v => ty v
  | None => false
  end.

(** The same schema as a check that runs: an object of five members that
    has each of the five fields, with its type. *)
Definition Cmd_schema (args_ty env_ty : json → bool) (doc : json) : bool :=
  json_is_object doc
  && bool_decide (json_object_size doc = 5%nat)
  && has_field doc "Path" json_is_string
  && has_field doc "Args" args_ty
  && has_field doc "Env" env_ty
  && has_field doc "RedirInput" json_is_boolean
  && has_field doc "RedirOutput" json_is_boolean.

(** [json_true()] and [json_false()]. *)
Definition json_boolean (b : bool) : json := if b then JTrue else JFalse.

(** The five fields of a command document. *)
Definition Cmd_members (path_ : string) (args env : json) (ri ro : bool)
    : list (string * json) :=
  [("Path", JString path_); ("Args", args); ("Env", env);
   ("RedirInput", json_boolean ri); ("RedirOutput", json_boolean ro)].

(** [Cmd_document args_ty env_ty doc]: the document is an object whose
    members are, in some order, exactly the five fields, with [Path] a
    string, the two flags booleans, and [Args] and [Env] as [args_ty] and
    [env_ty] want them. *)
Definition Cmd_document (args_ty env_ty : json → bool) (doc : json) : Prop :=
  ∃ ms path_ args env ri ro,
    doc = JObject ms ∧
    ms ≡ₚ Cmd_members path_ args env ri ro ∧
    args_ty args = true ∧ env_ty env = true.

(** The schema in the words of the spec: [Args] an array, [Env] a
    key/value mapping. *)
Definition schema_as_stated (doc : json) : Prop :=
  Cmd_document json_is_array json_is_object doc.

(** Neither redirect flag of the document is [true]. *)
Definition redirects_off (doc : json) : bool :=
  negb (has_field doc "RedirInput" json_is_true)
  && negb (has_field doc "RedirOutput" json_is_true).

(** The C view of a [NULL]-terminated vector: the texts of the strings
    that the cells before the first [NULL] point to. *)
Fixpoint read_cells (h : gmap addr block) (cells : list addr) : option (list string) :=
  match cells with
  | [] => None
  | p :: cells' =>
      if decide (p = NULL) then Some []
      else match h !! p with
           | Some (BChars s) => (s ::.) <$> read_cells h cells'
           | _ => None
           end
  end.

Definition read_strings (h : gmap addr block) (a : addr) : option (list string) :=
  match h !! a with
  | Some (BPtrs cells) => read_cells h cells
  | _ => None
  end.

(** The two loaders of string vectors. *)
Inductive loader : Type := Argv | Envp.

Definition run_loader (l : loader) : json → M addr :=
  match l with Argv => loadArgv | Envp => loadEnvp end.

Definition input_size (l : loader) (root : json) : nat :=
  match l with Argv => json_array_size root | Envp => json_object_size root end.

(** ** The driver *)

(** [n] calls in a row. *)
Fixpoint calls {A : Type} (m : M A) (n : nat) : M (list A) :=
  match n with
  | O => mret []
  | S n' => r ← m; rs ← calls m n'; mret (r :: rs)
  end.

(** The result of a call is an [Exit] request, and nothing was stored
    into [*err]. *)
Definition is_Exit (h : gmap addr block) (r : addr * option addr) : Prop :=
  r.1 ≠ NULL ∧ h !! r.1 = Some (BReqExit REQ_TYPE_EXIT) ∧ r.2 = None.

(** ** What a computation leaves alone *)

(** Every run of [m] takes a world to one that [R] relates to it. *)
Definition preserves {A : Type} (R : relation world) (m : M A) : Prop :=
  ∀ w a w', m w = Some (a, w') → R w w'.

(** Only the heap differs. *)
Definition heap_only : relation world := λ w w', w' = set_heap (heap w') w.

(** Only the heap differs, and it has only lost blocks. *)
Definition only_frees : relation world := λ w w',
  w' = set_heap (heap w') w ∧ heap w' ⊆ heap w.

(** [stderr] and the open descriptors have only grown at their end; of the
    messages of the companion socket, some of the first have been consumed. *)
Definition io_grows : relation world := λ w w',
  stderr w `prefix_of` stderr w' ∧
  open_fds w `prefix_of` open_fds w' ∧
  FdTubeFd w' `suffix_of` FdTubeFd w.

(** ** Vocabulary of the further properties *)

(** What a loader wants of its input. *)
Definition input_ok (l : loader) : json → bool :=
  match l with Argv => argv_ok | Envp => envp_ok end.

(** The strings of the vector a loader builds, in order. *)
Definition loaded_texts (l : loader) (root : json) : list string :=
  match l with
  | Argv => json_string_value <$> json_array_elems root
  | Envp => env_entry <$> json_object_members root
  end.

(** The number of descriptors a command asks for. *)
Definition requested (c : ReqCmd) : nat :=
  (if decide (redirInput c ≠ 0) then 1 else 0)
  + (if decide (redirOutput c ≠ 0) then 1 else 0).

(** The line that [printReqCmd] writes for an argument. *)
Definition arg_line (s : string) : string := "      " +:+ s +:+ LF.

(** ** Concrete runs *)

(** An empty heap, a silent companion socket, an unread stream. *)
Definition world0 : world := mkWorld ∅ [] [] [] (mkFILE EmptyString false).

(** A command document for [/bin/ls]. *)
Definition Cmd_doc (args env ri ro : json) : json :=
  JObject [("Path", JString "/bin/ls"); ("Args", args); ("Env", env);
           ("RedirInput", ri); ("RedirOutput", ro)].

Definition doc_ls : json :=
  Cmd_doc (JArray [JString "ls"]) (JObject [("A", JString "1")]) JFalse JFalse.

(** [Args] is an array, but not of strings. *)
Definition doc_args_not_strings : json :=
  Cmd_doc (JArray [JInteger 1]) (JObject []) JFalse JFalse.

(** The worlds that [loadEnvp] and [loadArgv] leave on two small inputs. *)
Definition world_env : world :=
  set_heap (<[3%nat := BChars "B=2"]>
              (<[2%nat := BChars "A=1"]>
                 (<[1%nat := BPtrs [2%nat; 3%nat; NULL]]> ∅))) world0.

Definition world_argv : world :=
  set_heap (<[3%nat := BChars "b"]>
              (<[2%nat := BChars "a"]>
                 (<[1%nat := BPtrs [2%nat; 3%nat; NULL]]> ∅))) world0.

(** A command with both redirections, as [loadReqCmd] leaves it. *)
Definition cmd_ls : ReqCmd := mkReqCmd REQ_TYPE_CMD 6%nat 2%nat 4%nat 1 1 5 6.

Definition world_cmd : world :=
  mkWorld (<[6%nat := BChars "/bin/ls"]>
             (<[5%nat := BChars "A=1"]>
                (<[4%nat := BPtrs [5%nat; NULL]]>
                   (<[3%nat := BChars "ls"]>
                      (<[2%nat := BPtrs [3%nat; NULL]]>
                         (<[1%nat := BReqCmd cmd_ls]> ∅))))))
          [] [] [5; 6] (mkFILE EmptyString false).

(** A command that asks for both descriptors; the control message for the
    first one is too short. *)
Definition world_two_fds : world :=
  mkWorld (<[1%nat := BReqCmd (mkReqCmd REQ_TYPE_CMD NULL NULL NULL 1 1 0 0)]> ∅)
          [] [mkRecv 1 12 0; mkRecv 1 20 7] [] (mkFILE EmptyString false).

(** A parser that finds nothing to read. *)
Definition no_document (f : FILE) : FILE * (json_error_t + json) :=
  (mkFILE EmptyString true, inl (mkJsonError 1 "'[' or '{' expected near end of file")).

(** The end-of-file indicator of the control stream is set. *)
Definition world_eof : world := mkWorld ∅ [] [] [] (mkFILE EmptyString true).

(** A command document that asks for both descriptors. *)
Definition doc_both : json :=
  Cmd_doc (JArray [JString "ls"]) (JObject [("A", JString "1")]) JTrue JTrue.

(** Two good control messages wait on the companion socket. *)
Definition world_fds : world :=
  mkWorld ∅ [] [mkRecv 1 20 7; mkRecv 1 20 8] [] (mkFILE EmptyString false).


(** A parser that reads the request [{"Cmd": doc}]. *)
Definition one_request (doc : json) (f : FILE) : FILE * (json_error_t + json) :=
  (mkFILE EmptyString false, inr (JObject [("Cmd", doc)])).

(** An array whose second cell is [NULL] and whose third cell is not. *)
Definition world_early_NULL : world :=
  set_heap (<[3%nat := BChars "b"]>
              (<[2%nat := BChars "a"]>
                 (<[1%nat := BPtrs [2%nat; NULL; 3%nat]]> ∅))) world0.

(** An array with no [NULL] cell. *)
Definition world_no_sentinel : world :=
  set_heap (<[2%nat := BChars "a"]> (<[1%nat := BPtrs [2%nat]]> ∅)) world0.

(** * Proofs *)

(** ** Running computations *)

Lemma bind_run {A B} (m : M A) (f : A → M B) w a w' :
  m w = Some (a, w') → (m ≫= f) w = f a w'.
Proof. intros H. unfold mbind, M_bind. by rewrite H. Qed.

Lemma set_heap_id w : set_heap (heap w) w = w.
Proof. by destruct w. Qed.

(** ** The allocator *)

Lemma malloc_addr_fresh h : h !! malloc_addr h = None.
Proof.
  apply not_elem_of_dom. unfold malloc_addr.
  pose proof (is_fresh ({[NULL]} ∪ dom h)) as Hf. set_solver.
Qed.

Lemma malloc_addr_nonnull h : malloc_addr h ≠ NULL.
Proof.
  unfold malloc_addr.
  pose proof (is_fresh ({[NULL]} ∪ dom h)) as Hf. set_solver.
Qed.

Lemma free_live p b w :
  p ≠ NULL → heap w !! p = Some b → free p w = Some (tt, set_heap (delete p (heap w)) w).
Proof. intros Hp Hb. unfold free. rewrite decide_False by done. by rewrite Hb. Qed.

Lemma load_live p b w : heap w !! p = Some b → load p w = Some (b, w).
Proof. intros Hb. unfold load. by rewrite Hb. Qed.

Lemma store_live p b b' w :
  heap w !! p = Some b → store p b' w = Some (tt, set_heap (<[p:=b']> (heap w)) w).
Proof. intros Hb. unfold store. by rewrite Hb. Qed.

Lemma load_cell_live p cells i q w :
  heap w !! p = Some (BPtrs cells) → cells !! i = Some q → load_cell p i w = Some (q, w).
Proof.
  intros Hb Hq. unfold load_cell. rewrite (bind_run _ _ _ _ _ (load_live _ _ _ Hb)).
  by rewrite Hq.
Qed.

Lemma store_cell_live p cells i v w :
  heap w !! p = Some (BPtrs cells) → (i < length cells)%nat →
  store_cell p i v w = Some (tt, set_heap (<[p:=BPtrs (<[i:=v]> cells)]> (heap w)) w).
Proof.
  intros Hb Hi. unfold store_cell. rewrite (bind_run _ _ _ _ _ (load_live _ _ _ Hb)).
  rewrite decide_True by done. by eapply store_live.
Qed.

Lemma update_cmd_live p c f w :
  heap w !! p = Some (BReqCmd c) →
  update_cmd p f w = Some (tt, set_heap (<[p:=BReqCmd (f c)]> (heap w)) w).
Proof.
  intros Hb. unfold update_cmd, load_cmd.
  unfold mbind at 1, M_bind. rewrite (bind_run _ _ _ _ _ (load_live _ _ _ Hb)).
  unfold mret, M_ret. by eapply store_live.
Qed.

(** ** Heaps that grow by fresh blocks *)

Lemma extends_nil h : extends h [] h.
Proof. split_and!; [done | set_solver | by inversion 1]. Qed.

Lemma extends_malloc h L h' b :
  extends h L h' → extends h (malloc_addr h' :: L) (<[malloc_addr h' := b]> h').
Proof.
  intros (Hsub & Hdom & Hnew). pose proof (malloc_addr_fresh h') as Hf.
  split_and!.
  - etrans; [done|]. by apply insert_subseteq.
  - rewrite dom_insert_L, Hdom. set_solver.
  - intros x [->|Hx]%elem_of_cons; [|by auto].
    destruct (h !! malloc_addr h') eqn:E; [|done].
    by rewrite (lookup_weaken _ _ _ _ E Hsub) in Hf.
Qed.

Lemma extends_insert h L h' x b :
  extends h L h' → x ∈ L → extends h L (<[x:=b]> h').
Proof.
  intros (Hsub & Hdom & Hnew) Hx. split_and!; [|rewrite dom_insert_L, Hdom; set_solver|done].
  apply insert_subseteq_r; auto.
Qed.

Lemma extends_trans h1 L1 h2 L2 h3 :
  extends h1 L1 h2 → extends h2 L2 h3 → extends h1 (L2 ++ L1) h3.
Proof.
  intros (Hsub1 & Hdom1 & Hnew1) (Hsub2 & Hdom2 & Hnew2). split_and!.
  - by etrans.
  - rewrite Hdom2, Hdom1, list_to_set_app_L. set_solver.
  - intros x [Hx|Hx]%elem_of_app; [|by auto].
    specialize (Hnew2 _ Hx). destruct (h1 !! x) eqn:E; [|done].
    by rewrite (lookup_weaken _ _ _ _ E Hsub1) in Hnew2.
Qed.

Lemma extends_perm h L L' h' :
  (∀ x, x ∈ L ↔ x ∈ L') → extends h L h' → extends h L' h'.
Proof.
  intros HL (Hsub & Hdom & Hnew). split_and!; [done| |].
  - rewrite Hdom. set_solver.
  - intros x Hx. apply Hnew, HL, Hx.
Qed.

(** Freeing exactly what was added gives the heap back. *)
Lemma extends_restore h L h' : extends h L h' → foldr delete h' L = h.
Proof.
  intros (Hsub & Hdom & Hnew). apply map_eq. intros x.
  destruct (decide (x ∈ L)) as [Hx|Hx].
  - rewrite lookup_foldr_delete by done. symmetry. auto.
  - rewrite lookup_foldr_delete_not_elem_of by done.
    destruct (h !! x) eqn:E; [by eapply lookup_weaken|].
    apply not_elem_of_dom. rewrite Hdom. apply not_elem_of_dom in E. set_solver.
Qed.

Lemma extends_live h L h' x : extends h L h' → x ∈ L → is_Some (h' !! x).
Proof. intros (_ & Hdom & _) Hx. apply elem_of_dom. rewrite Hdom. set_solver. Qed.

(** ** String vectors in the heap *)

Lemma strings_in_agree h h' ps ss :
  (∀ x, x ∈ ps → h' !! x = h !! x) → strings_in h ps ss → strings_in h' ps ss.
Proof.
  intros Hag Hss. induction Hss as [|p s ps ss Hp _ IH]; [constructor|].
  constructor.
  - rewrite Hag; [done|by left].
  - apply IH. intros x Hx. apply Hag. by right.
Qed.

Lemma strings_in_live h ps ss p : strings_in h ps ss → p ∈ ps → is_Some (h !! p).
Proof.
  intros Hss Hp. induction Hss as [|q s ps ss Hq _ IH]; [by inversion Hp|].
  apply elem_of_cons in Hp as [->|Hp]; eauto.
Qed.

Lemma vector_at_agree h h' a ps ss rest :
  (∀ x, x ∈ a :: ps → h' !! x = h !! x) →
  vector_at h a ps ss rest → vector_at h' a ps ss rest.
Proof.
  intros Hag [Hb Hnd Hnn Hss]. split; [|done|done|].
  - rewrite Hag; [done|by left].
  - eapply strings_in_agree; [|exact Hss]. intros x Hx. apply Hag. by right.
Qed.

Lemma vector_at_weaken h h' a ps ss rest :
  h ⊆ h' → vector_at h a ps ss rest → vector_at h' a ps ss rest.
Proof.
  intros Hsub Hv. eapply vector_at_agree; [|exact Hv].
  intros x [->|Hx]%elem_of_cons.
  - rewrite (vec_block _ _ _ _ _ Hv). eapply lookup_weaken; [|done]. apply Hv.
  - destruct (strings_in_live _ _ _ _ (vec_strings _ _ _ _ _ Hv) Hx) as [b Hb].
    rewrite Hb. by eapply lookup_weaken.
Qed.

(** ** [freeStrings] *)

Lemma freeStrings_loop_spec a rest ps : ∀ pre fuel w,
  heap w !! a = Some (BPtrs (pre ++ ps ++ NULL :: rest)) →
  a ∉ ps → NoDup ps → NULL ∉ ps →
  (∀ p, p ∈ ps → is_Some (heap w !! p)) →
  (length ps < fuel)%nat →
  freeStrings_loop fuel a (length pre) w
  = Some (tt, set_heap (foldr delete (heap w) ps) w).
Proof.
  induction ps as [|p ps IH]; intros pre fuel w Ha Hna Hnd Hnn Hlive Hfuel;
    (destruct fuel as [|fuel]; [simpl in Hfuel; lia|]); cbn [freeStrings_loop].
  - rewrite (bind_run _ _ _ _ _ (load_cell_live _ _ _ NULL _ Ha (list_lookup_middle _ _ _ _ eq_refl))).
    rewrite decide_True by done. cbn. by rewrite set_heap_id.
  - rewrite (bind_run _ _ _ _ _ (load_cell_live _ _ _ p _ Ha (list_lookup_middle _ _ _ _ eq_refl))).
    rewrite decide_False by (intros ->; apply Hnn; by left).
    destruct (Hlive p) as [b Hb]; [by left|].
    rewrite (bind_run _ _ _ _ _ (free_live _ _ _ (λ E, Hnn (eq_ind_r (λ q, q ∈ p :: ps) (list_elem_of_here p ps) (eq_sym E))) Hb)).
    specialize (IH (pre ++ [p]) fuel (set_heap (delete p (heap w)) w)).
    rewrite length_app in IH. cbn [length] in IH.
    replace (length pre + 1)%nat with (S (length pre)) in IH by lia.
    rewrite IH; clear IH.
    + cbn. unfold set_heap; cbn. by rewrite delete_foldr_delete.
    + cbn. rewrite lookup_delete_ne by (intros ->; apply Hna; by left).
      by rewrite <- app_assoc.
    + intros Hin. apply Hna. by right.
    + by inversion Hnd.
    + intros Hin. apply Hnn. by right.
    + intros q Hq. cbn. rewrite lookup_delete_ne.
      * apply Hlive. by right.
      * intros ->. by inversion Hnd.
    + simpl in Hfuel. lia.
Qed.

Lemma freeStrings_spec a ps ss rest w :
  vector_at (heap w) a ps ss (NULL :: rest) →
  freeStrings a w = Some (tt, set_heap (foldr delete (heap w) (a :: ps)) w).
Proof.
  intros [Ha Hnd Hnn Hss]. unfold freeStrings.
  rewrite (bind_run _ _ _ _ _ (load_live _ _ _ Ha)).
  apply NoDup_cons in Hnd as [Hna Hnd].
  rewrite (bind_run _ _ _ tt (set_heap (foldr delete (heap w) ps) w)).
  - erewrite free_live.
    + done.
    + intros ->. apply Hnn. by left.
    + cbn. rewrite lookup_foldr_delete_not_elem_of by done. exact Ha.
  - apply (freeStrings_loop_spec a rest ps [] _ w); try done.
    + intros Hin. apply Hnn. by right.
    + intros p Hp. by eapply strings_in_live.
    + rewrite length_app. simpl. lia.
Qed.

(** ** Building a vector cell by cell *)

Lemma building_start h0 n :
  building h0 (<[malloc_addr h0 := BPtrs (replicate n NULL)]> h0)
           (malloc_addr h0) [] [] (replicate n NULL).
Proof.
  split.
  - apply (extends_malloc h0 [] h0), extends_nil.
  - split; [by rewrite lookup_insert_eq| |  |constructor].
    + apply NoDup_singleton.
    + intros Hin%list_elem_of_singleton. by eapply malloc_addr_nonnull.
Qed.

Lemma building_push h0 h a ps ss rest s :
  building h0 h a ps ss (NULL :: rest) →
  building h0
    (<[a := BPtrs (<[length ps := malloc_addr h]> (ps ++ NULL :: rest))]>
       (<[malloc_addr h := BChars s]> h))
    a (ps ++ [malloc_addr h]) (ss ++ [s]) rest.
Proof.
  intros [Hext [Ha Hnd Hnn Hss]].
  pose proof (malloc_addr_fresh h) as Hq. pose proof (malloc_addr_nonnull h) as Hq0.
  set (q := malloc_addr h) in *.
  assert (q ≠ a) as Hqa by (intros E; rewrite E, Ha in Hq; done).
  assert (q ∉ ps) as Hqps.
  { intros Hin. destruct (strings_in_live _ _ _ _ Hss Hin) as [b Hb]. by rewrite Hb in Hq. }
  apply NoDup_cons in Hnd as [Hna Hnd].
  split.
  - apply extends_insert; [|by left].
    apply (extends_perm _ (q :: a :: ps)); [set_solver|].
    by apply extends_malloc.
  - split.
    + rewrite lookup_insert_eq. do 2 f_equal.
      rewrite insert_app_r_alt by lia. rewrite Nat.sub_diag. cbn.
      by rewrite <- app_assoc.
    + apply NoDup_cons. split; [set_solver|].
      apply NoDup_app. split_and!; [done|set_solver|apply NoDup_singleton].
    + set_solver.
    + apply Forall2_app.
      * eapply strings_in_agree; [|exact Hss]. intros x Hx.
        rewrite !lookup_insert_ne; [done|set_solver..].
      * constructor; [|constructor].
        rewrite lookup_insert_ne by done. by rewrite lookup_insert_eq.
Qed.

Lemma building_cell_lt h0 h a ps ss n :
  building h0 h a ps ss (replicate (S n) NULL) →
  h !! a = Some (BPtrs (ps ++ NULL :: replicate n NULL)) ∧
  (length ps < length (ps ++ NULL :: replicate n NULL))%nat.
Proof.
  intros [_ [Ha _ _ _]]. split; [done|]. rewrite length_app. simpl. lia.
Qed.

Lemma loadArgv_loop_step h0 a s args ps ss w :
  building h0 (heap w) a ps ss (replicate (S (S (length args))) NULL) →
  ∃ h', building h0 h' a (ps ++ [malloc_addr (heap w)]) (ss ++ [s])
                 (replicate (S (length args)) NULL) ∧
        loadArgv_loop (JString s :: args) a (length ps) w
        = loadArgv_loop args a (length (ps ++ [malloc_addr (heap w)])) (set_heap h' w).
Proof.
  intros Hb. eexists. split; [exact (building_push _ _ _ _ _ _ s Hb)|].
  destruct (building_cell_lt _ _ _ _ _ _ Hb) as [Ha Hlt].
  cbn [loadArgv_loop json_is_string negb json_string_value].
  unfold strdup. unfold mbind at 1, M_bind at 1. cbn [malloc].
  erewrite bind_run; cycle 1.
  { eapply store_cell_live; [|exact Hlt]. cbn.
    rewrite lookup_insert_ne; [exact Ha|].
    intros E. pose proof (malloc_addr_fresh (heap w)) as Hf. by rewrite E, Ha in Hf. }
  rewrite length_app. cbn [length]. by rewrite Nat.add_1_r.
Qed.

Lemma loadArgv_loop_ok h0 a : ∀ args ps ss w,
  forallb json_is_string args = true →
  building h0 (heap w) a ps ss (replicate (S (length args)) NULL) →
  ∃ qs h',
    loadArgv_loop args a (length ps) w = Some (a, set_heap h' w) ∧
    building h0 h' a (ps ++ qs) (ss ++ (json_string_value <$> args)) [NULL] ∧
    length qs = length args.
Proof.
  induction args as [|arg args IH]; intros ps ss w Hall Hb.
  - exists [], (heap w). rewrite !app_nil_r, set_heap_id. by split_and!.
  - cbn [forallb] in Hall. apply andb_prop in Hall as [Harg Hall].
    destruct arg as [?|?|txt|?|?| | |]; try discriminate Harg.
    destruct (loadArgv_loop_step _ _ txt _ _ _ _ Hb) as (h1 & Hb1 & ->).
    destruct (IH _ _ (set_heap h1 w) Hall Hb1) as (qs & h' & Hrun & Hb' & Hlen).
    exists (malloc_addr (heap w) :: qs), h'. split_and!.
    + exact Hrun.
    + cbn [fmap list_fmap json_string_value]. by rewrite <- !app_assoc in Hb'.
    + cbn. by rewrite Hlen.
Qed.

Lemma loadArgv_loop_bad h0 a bad post : ∀ pre ps ss w,
  forallb json_is_string pre = true →
  json_is_string bad = false →
  building h0 (heap w) a ps ss (replicate (S (length (pre ++ bad :: post))) NULL) →
  loadArgv_loop (pre ++ bad :: post) a (length ps) w
  = Some (NULL, set_stderr (stderr w ++ [argv_diag]) (set_heap h0 w)).
Proof.
  induction pre as [|arg pre IH]; intros ps ss w Hall Hbad Hb.
  - cbn [app loadArgv_loop]. rewrite Hbad. cbn [negb].
    destruct Hb as [Hext Hv].
    unfold mbind at 1, M_bind at 1. cbn [fprintf_stderr].
    erewrite bind_run; cycle 1.
    { eapply freeStrings_spec. exact Hv. }
    cbn -[foldr]. by rewrite (extends_restore _ _ _ Hext).
  - cbn [forallb] in Hall. apply andb_prop in Hall as [Harg Hall].
    destruct arg as [?|?|txt|?|?| | |]; try discriminate Harg.
    destruct (loadArgv_loop_step h0 a txt (pre ++ bad :: post) ps ss w Hb)
      as (h1 & Hb1 & Hrun).
    rewrite <- app_comm_cons, Hrun. exact (IH _ _ (set_heap h1 w) Hall Hbad Hb1).
Qed.

Lemma forallb_false_split {A} (f : A → bool) (l : list A) :
  forallb f l = false →
  ∃ pre bad post, l = pre ++ bad :: post ∧ forallb f pre = true ∧ f bad = false.
Proof.
  induction l as [|x l IH]; [discriminate|]. cbn [forallb].
  destruct (f x) eqn:Hx; cbn [andb].
  - intros (pre & bad & post & -> & Hpre & Hbad)%IH.
    exists (x :: pre), bad, post. cbn [forallb]. by rewrite Hx.
  - intros _. by exists [], x, l.
Qed.

Lemma loadArgv_not_array root w :
  json_is_array root = false →
  loadArgv root w = Some (NULL, set_stderr (stderr w ++ ["argv not array" +:+ LF]) w).
Proof. intros H. unfold loadArgv. by rewrite H. Qed.

Lemma loadArgv_ok args w :
  forallb json_is_string args = true →
  ∃ a ps h',
    loadArgv (JArray args) w = Some (a, set_heap h' w) ∧
    building (heap w) h' a ps (json_string_value <$> args) [NULL] ∧
    length ps = length args.
Proof.
  intros Hall. unfold loadArgv. cbn [json_is_array negb json_array_size json_array_elems].
  unfold alloc_ptrs. unfold mbind, M_bind. cbn [malloc].
  rewrite Nat.add_1_r.
  destruct (loadArgv_loop_ok (heap w) (malloc_addr (heap w)) args [] []
              (set_heap (<[malloc_addr (heap w) := BPtrs (replicate (S (length args)) NULL)]> (heap w)) w)
              Hall (building_start _ _)) as (qs & h' & Hrun & Hb & Hlen).
  exists (malloc_addr (heap w)), qs, h'. by split_and!.
Qed.

Lemma loadArgv_bad args w :
  forallb json_is_string args = false →
  loadArgv (JArray args) w = Some (NULL, set_stderr (stderr w ++ [argv_diag]) w).
Proof.
  intros (pre & bad & post & -> & Hpre & Hbad)%forallb_false_split.
  unfold loadArgv. cbn [json_is_array negb json_array_size json_array_elems].
  unfold alloc_ptrs. unfold mbind, M_bind. cbn [malloc].
  rewrite Nat.add_1_r.
  etrans; [exact (loadArgv_loop_bad (heap w) (malloc_addr (heap w)) bad post pre [] []
             (set_heap (<[malloc_addr (heap w) := BPtrs (replicate (S (length (pre ++ bad :: post))) NULL)]> (heap w)) w)
             Hpre Hbad (building_start _ _))|].
  done.
Qed.

Lemma loadEnvp_loop_step h0 e key s members ps ss w :
  building h0 (heap w) e ps ss (replicate (S (S (length members))) NULL) →
  ∃ h', building h0 h' e (ps ++ [malloc_addr (heap w)]) (ss ++ [key +:+ "=" +:+ s])
                 (replicate (S (length members)) NULL) ∧
        loadEnvp_loop ((key, JString s) :: members) e (length ps) w
        = loadEnvp_loop members e (length (ps ++ [malloc_addr (heap w)])) (set_heap h' w).
Proof.
  intros Hb. eexists. split; [exact (building_push _ _ _ _ _ _ (key +:+ "=" +:+ s) Hb)|].
  destruct (building_cell_lt _ _ _ _ _ _ Hb) as [Ha Hlt].
  cbn [loadEnvp_loop json_is_string negb json_string_value].
  unfold mbind at 1, M_bind at 1. cbn [malloc].
  erewrite bind_run; cycle 1.
  { eapply store_cell_live; [|exact Hlt]. cbn.
    rewrite lookup_insert_ne; [exact Ha|].
    intros E. pose proof (malloc_addr_fresh (heap w)) as Hf. by rewrite E, Ha in Hf. }
  rewrite length_app. cbn [length]. by rewrite Nat.add_1_r.
Qed.

Lemma loadEnvp_loop_ok h0 e : ∀ members ps ss w,
  env_values_ok members = true →
  building h0 (heap w) e ps ss (replicate (S (length members)) NULL) →
  ∃ qs h',
    loadEnvp_loop members e (length ps) w = Some (e, set_heap h' w) ∧
    building h0 h' e (ps ++ qs) (ss ++ (env_entry <$> members)) [NULL] ∧
    length qs = length members.
Proof.
  induction members as [|[key value] members IH]; intros ps ss w Hall Hb.
  - exists [], (heap w). rewrite !app_nil_r, set_heap_id. by split_and!.
  - unfold env_values_ok in Hall. cbn [forallb snd] in Hall.
    apply andb_prop in Hall as [Hv Hall].
    destruct value as [?|?|txt|?|?| | |]; try discriminate Hv.
    destruct (loadEnvp_loop_step _ _ key txt _ _ _ _ Hb) as (h1 & Hb1 & ->).
    destruct (IH _ _ (set_heap h1 w) Hall Hb1) as (qs & h' & Hrun & Hb' & Hlen).
    exists (malloc_addr (heap w) :: qs), h'. split_and!.
    + exact Hrun.
    + cbn [fmap list_fmap]. unfold env_entry at 1. cbn [fst snd json_string_value].
      by rewrite <- !app_assoc in Hb'.
    + cbn. by rewrite Hlen.
Qed.

Lemma loadEnvp_loop_bad h0 e bad post : ∀ pre ps ss w,
  env_values_ok pre = true →
  json_is_string bad.2 = false →
  building h0 (heap w) e ps ss (replicate (S (length (pre ++ bad :: post))) NULL) →
  loadEnvp_loop (pre ++ bad :: post) e (length ps) w
  = Some (NULL, set_stderr (stderr w ++ [envp_diag]) (set_heap h0 w)).
Proof.
  induction pre as [|[key value] pre IH]; intros ps ss w Hall Hbad Hb.
  - destruct bad as [bkey bval]. cbn [app loadEnvp_loop]. cbn [snd] in Hbad.
    rewrite Hbad. cbn [negb].
    destruct Hb as [Hext Hv].
    unfold mbind at 1, M_bind at 1. cbn [fprintf_stderr].
    erewrite bind_run; cycle 1.
    { eapply freeStrings_spec. exact Hv. }
    cbn -[foldr]. by rewrite (extends_restore _ _ _ Hext).
  - unfold env_values_ok in Hall. cbn [forallb snd] in Hall.
    apply andb_prop in Hall as [Hv Hall].
    destruct value as [?|?|txt|?|?| | |]; try discriminate Hv.
    destruct (loadEnvp_loop_step h0 e key txt (pre ++ bad :: post) ps ss w Hb)
      as (h1 & Hb1 & Hrun).
    rewrite <- app_comm_cons, Hrun. exact (IH _ _ (set_heap h1 w) Hall Hbad Hb1).
Qed.

Lemma loadEnvp_not_object root w :
  json_is_object root = false →
  loadEnvp root w = Some (NULL, set_stderr (stderr w ++ ["envp not object" +:+ LF]) w).
Proof. intros H. unfold loadEnvp. by rewrite H. Qed.

Lemma loadEnvp_ok members w :
  env_values_ok members = true →
  ∃ e ps h',
    loadEnvp (JObject members) w = Some (e, set_heap h' w) ∧
    building (heap w) h' e ps (env_entry <$> members) [NULL] ∧
    length ps = length members.
Proof.
  intros Hall. unfold loadEnvp. cbn [json_is_object negb json_object_size json_object_members].
  unfold alloc_ptrs. unfold mbind, M_bind. cbn [malloc].
  rewrite Nat.add_1_r.
  destruct (loadEnvp_loop_ok (heap w) (malloc_addr (heap w)) members [] []
              (set_heap (<[malloc_addr (heap w) := BPtrs (replicate (S (length members)) NULL)]> (heap w)) w)
              Hall (building_start _ _)) as (qs & h' & Hrun & Hb & Hlen).
  exists (malloc_addr (heap w)), qs, h'. by split_and!.
Qed.

Lemma loadEnvp_bad members w :
  env_values_ok members = false →
  loadEnvp (JObject members) w = Some (NULL, set_stderr (stderr w ++ [envp_diag]) w).
Proof.
  intros (pre & bad & post & -> & Hpre & Hbad)%forallb_false_split.
  unfold loadEnvp. cbn [json_is_object negb json_object_size json_object_members].
  unfold alloc_ptrs. unfold mbind, M_bind. cbn [malloc].
  rewrite Nat.add_1_r.
  etrans; [exact (loadEnvp_loop_bad (heap w) (malloc_addr (heap w)) bad post pre [] []
             (set_heap (<[malloc_addr (heap w) := BPtrs (replicate (S (length (pre ++ bad :: post))) NULL)]> (heap w)) w)
             Hpre Hbad (building_start _ _))|].
  done.
Qed.

(** ** Receiving descriptors *)

Lemma recvFd_run w :
  recvFd w = Some (recvFd_value (next_recvmsg w), recvFd_world w).
Proof.
  unfold recvFd, recvFd_value, recvFd_world, recvFd_log, next_recvmsg, carries_fd, short_diag.
  destruct w as [h err q fds f]. unfold mbind, M_bind, Check_1, recvmsg, fprintf_stderr; cbn.
  destruct q as [|r q]; cbn.
  - rewrite decide_False by done. cbn.
    rewrite (decide_True (P := 0 < CONTROLLEN)) by done.
    rewrite (decide_False (P := _ ∧ _)) by (intros [_ H]; done).
    cbn. by rewrite <- !app_assoc.
  - destruct (decide (recv_ret r = -1)) as [E|E]; cbn.
    + rewrite !(decide_False (P := _ ∧ _)) by (intros [H _]; done). done.
    + destruct (decide (recv_controllen r < CONTROLLEN)) as [E'|E']; cbn.
      * rewrite !(decide_False (P := _ ∧ _)) by (intros [_ H]; lia).
        by rewrite <- !app_assoc.
      * rewrite !(decide_True (P := _ ∧ _)) by (split; [done|lia]).
        by rewrite <- !app_assoc.
Qed.

Lemma recvFd_value_nonneg w :
  0 ≤ recvFd_value (next_recvmsg w) →
  recvFd_value (next_recvmsg w) ∈ open_fds (recvFd_world w).
Proof.
  unfold recvFd_value, recvFd_world. cbn. case_decide; [|lia].
  intros _. apply elem_of_app. right. by left.
Qed.

Lemma open_fds_recvFd_world w x : x ∈ open_fds w → x ∈ open_fds (recvFd_world w).
Proof.
  unfold recvFd_world. cbn. case_decide; [|done]. intros Hx. apply elem_of_app. by left.
Qed.

Lemma load_cmd_live p c w : heap w !! p = Some (BReqCmd c) → load_cmd p w = Some (c, w).
Proof. intros Hb. unfold load_cmd. by rewrite (bind_run _ _ _ _ _ (load_live _ _ _ Hb)). Qed.

Ltac run_monad := unfold mbind, M_bind, mret, M_ret; cbv beta iota.

Lemma recvFds_input_failed cmd c w :
  heap w !! cmd = Some (BReqCmd c) → redirInput c ≠ 0 →
  recvFd_value (next_recvmsg w) < 0 →
  recvFds cmd w
  = Some (-1, stored cmd (set_input (recvFd_value (next_recvmsg w)) c) w).
Proof.
  intros Hc Hi Hneg. unfold recvFds. run_monad.
  rewrite (load_cmd_live _ _ _ Hc). rewrite decide_True by done.
  rewrite recvFd_run.
  rewrite (update_cmd_live cmd c _ (recvFd_world w) Hc).
  by rewrite bool_decide_eq_true_2.
Qed.

Lemma recvFds_both cmd c w :
  heap w !! cmd = Some (BReqCmd c) → redirInput c ≠ 0 → redirOutput c ≠ 0 →
  0 ≤ recvFd_value (next_recvmsg w) →
  let c1 := set_input (recvFd_value (next_recvmsg w)) c in
  let w1 := stored cmd c1 w in
  let v2 := recvFd_value (next_recvmsg w1) in
  recvFds cmd w
  = Some (if decide (v2 < 0) then -1 else 0, stored cmd (set_output v2 c1) w1).
Proof.
  intros Hc Hi Ho Hpos c1 w1 v2. unfold recvFds. run_monad.
  rewrite (load_cmd_live _ _ _ Hc). rewrite decide_True by done.
  rewrite recvFd_run.
  rewrite (update_cmd_live cmd c _ (recvFd_world w) Hc).
  rewrite bool_decide_eq_false_2 by lia.
  assert (heap w1 !! cmd = Some (BReqCmd c1)) as Hc1 by apply lookup_insert_eq.
  fold c1. change (set_heap _ (recvFd_world w)) with w1.
  rewrite (load_cmd_live _ _ _ Hc1). rewrite decide_True by done.
  rewrite recvFd_run.
  rewrite (update_cmd_live cmd c1 _ (recvFd_world w1) Hc1).
  fold v2. unfold stored. by destruct (decide (v2 < 0)); [rewrite bool_decide_eq_true_2|rewrite bool_decide_eq_false_2].
Qed.

Lemma recvFds_input_only cmd c w :
  heap w !! cmd = Some (BReqCmd c) → redirInput c ≠ 0 → redirOutput c = 0 →
  0 ≤ recvFd_value (next_recvmsg w) →
  recvFds cmd w
  = Some (0, stored cmd (set_input (recvFd_value (next_recvmsg w)) c) w).
Proof.
  intros Hc Hi Ho Hpos. unfold recvFds. run_monad.
  rewrite (load_cmd_live _ _ _ Hc). rewrite decide_True by done.
  rewrite recvFd_run.
  rewrite (update_cmd_live cmd c _ (recvFd_world w) Hc).
  rewrite bool_decide_eq_false_2 by lia.
  erewrite load_cmd_live by apply lookup_insert_eq.
  by rewrite decide_False by (cbn; intros H; by apply H).
Qed.

Lemma recvFds_output_only cmd c w :
  heap w !! cmd = Some (BReqCmd c) → redirInput c = 0 → redirOutput c ≠ 0 →
  let v2 := recvFd_value (next_recvmsg w) in
  recvFds cmd w
  = Some (if decide (v2 < 0) then -1 else 0, stored cmd (set_output v2 c) w).
Proof.
  intros Hc Hi Ho v2. unfold recvFds. run_monad.
  rewrite (load_cmd_live _ _ _ Hc). rewrite decide_False by (intros H; by apply H).
  rewrite (load_cmd_live _ _ _ Hc). rewrite decide_True by done.
  rewrite recvFd_run.
  rewrite (update_cmd_live cmd c _ (recvFd_world w) Hc).
  fold v2. unfold stored. by destruct (decide (v2 < 0)); [rewrite bool_decide_eq_true_2|rewrite bool_decide_eq_false_2].
Qed.

Lemma recvFds_none cmd c w :
  heap w !! cmd = Some (BReqCmd c) → redirInput c = 0 → redirOutput c = 0 →
  recvFds cmd w = Some (0, w).
Proof.
  intros Hc Hi Ho. unfold recvFds. run_monad.
  rewrite (load_cmd_live _ _ _ Hc). rewrite decide_False by (intros H; by apply H).
  rewrite (load_cmd_live _ _ _ Hc). by rewrite decide_False by (intros H; by apply H).
Qed.

Lemma recvFds_run cmd c w :
  heap w !! cmd = Some (BReqCmd c) →
  ∃ r c' w',
    recvFds cmd w = Some (r, w') ∧
    heap w' = <[cmd := BReqCmd c']> (heap w) ∧
    same_but_fds c c' ∧
    (r = 0 → fds_received c' w').
Proof.
  intros Hc.
  destruct (decide (redirInput c = 0)) as [Hi|Hi], (decide (redirOutput c = 0)) as [Ho|Ho].
  - exists 0, c, w. split_and!; [exact (recvFds_none cmd c w Hc Hi Ho)|by rewrite insert_id|done|].
    intros _. split; intros Hn; by destruct Hn.
  - eexists _, _, _. split_and!; [exact (recvFds_output_only cmd c w Hc Hi Ho)|done|done|].
    case_decide; [done|]. intros _. split; [intros Hn; by destruct Hn|].
    intros _. cbn. split; [lia|]. by apply recvFd_value_nonneg; lia.
  - destruct (decide (recvFd_value (next_recvmsg w) < 0)).
    + eexists _, _, _. split_and!; [exact (recvFds_input_failed cmd c w Hc Hi ltac:(done))|done|done|done].
    + eexists _, _, _. split_and!; [exact (recvFds_input_only cmd c w Hc Hi Ho ltac:(lia))|done|done|].
      intros _. split; [|intros Hn; by destruct Hn].
      intros _. cbn. split; [lia|]. by apply recvFd_value_nonneg; lia.
  - destruct (decide (recvFd_value (next_recvmsg w) < 0)).
    + eexists _, _, _. split_and!; [exact (recvFds_input_failed cmd c w Hc Hi ltac:(done))|done|done|done].
    + eexists _, _, _. split_and!; [exact (recvFds_both cmd c w Hc Hi Ho ltac:(lia))|cbn; by rewrite insert_insert_eq|done|].
      case_decide; [done|]. intros _. split; intros _; cbn.
      * split; [lia|]. apply open_fds_recvFd_world. cbn. apply recvFd_value_nonneg; lia.
      * split; [lia|]. apply (recvFd_value_nonneg (stored _ _ _)). lia.
Qed.

Lemma owned_string_agree h h' p L :
  (∀ x, x ∈ L → h' !! x = h !! x) → owned_string h p L → owned_string h' p L.
Proof.
  intros Hag [[-> ->]|(Hp & Hl & ->)]; [by left|right].
  split_and!; [done| |done]. rewrite Hag; [done|by left].
Qed.

Lemma owned_vector_agree h h' a L :
  (∀ x, x ∈ L → h' !! x = h !! x) → owned_vector h a L → owned_vector h' a L.
Proof.
  intros Hag [[-> ->]|(ps & ss & Hv & ->)]; [by left|right].
  exists ps, ss. split; [|done]. by eapply vector_at_agree.
Qed.

Lemma free_owned_string p L w :
  owned_string (heap w) p L →
  (if decide (p = NULL) then mret () else free p) w
  = Some ((), set_heap (foldr delete (heap w) L) w).
Proof.
  intros [[-> ->]|(Hp & [b Hb] & ->)].
  - rewrite decide_True by done. cbn. by rewrite set_heap_id.
  - rewrite decide_False by done. by erewrite free_live.
Qed.

Lemma free_owned_vector a L w :
  owned_vector (heap w) a L →
  (if decide (a = NULL) then mret () else freeStrings a) w
  = Some ((), set_heap (foldr delete (heap w) L) w).
Proof.
  intros [[-> ->]|(ps & ss & Hv & ->)].
  - rewrite decide_True by done. cbn. by rewrite set_heap_id.
  - rewrite decide_False by (intros ->; apply (vec_nonnull _ _ _ _ _ Hv); by left).
    by erewrite freeStrings_spec.
Qed.

Lemma freeReqCmd_spec h0 cmd c LP LA LE w :
  partial_cmd h0 (heap w) cmd c LP LA LE →
  freeReqCmd cmd w = Some ((), set_heap h0 w).
Proof.
  intros [Hc Hnn HP HA HE Hnd Hext]. unfold footprint in *.
  apply NoDup_app in Hnd as (_ & HdP & Hnd).
  apply NoDup_app in Hnd as (_ & HdE & Hnd).
  apply NoDup_app in Hnd as (_ & HdA & _).
  unfold freeReqCmd.
  rewrite (bind_run _ _ _ _ _ (load_cmd_live _ _ _ Hc)).
  rewrite (bind_run _ _ _ _ _ (free_owned_string _ _ _ HP)).
  erewrite bind_run; cycle 1.
  { apply (free_owned_vector _ LA). cbn. eapply owned_vector_agree; [|exact HA].
    intros x Hx. apply lookup_foldr_delete_not_elem_of. intros HxP.
    apply (HdP _ HxP). rewrite !elem_of_app. auto. }
  erewrite bind_run; cycle 1.
  { apply (free_owned_vector _ LE). cbn. eapply owned_vector_agree; [|exact HE].
    intros x Hx. rewrite !lookup_foldr_delete_not_elem_of; [done| |].
    - intros HxP. apply (HdP _ HxP). rewrite !elem_of_app. auto.
    - intros HxA. apply (HdE _ Hx). rewrite !elem_of_app. auto. }
  erewrite free_live; [|done|]; cycle 1.
  { cbn. rewrite !lookup_foldr_delete_not_elem_of; [exact Hc| | |].
    - intros HxP. apply (HdP _ HxP). rewrite !elem_of_app, list_elem_of_singleton. auto.
    - intros HxA. apply (HdA _ HxA). by apply list_elem_of_singleton.
    - intros HxE. apply (HdE _ HxE). rewrite !elem_of_app, list_elem_of_singleton. auto. }
  cbn -[foldr]. do 2 f_equal. unfold set_heap; cbn -[foldr]. f_equal.
  change (delete cmd ?m) with (foldr delete m [cmd]).
  rewrite <- !foldr_app. apply extends_restore.
  eapply extends_perm; [|exact Hext].
  intros x. rewrite !elem_of_app. tauto.
Qed.

Lemma partial_cmd_new h0 c :
  path c = NULL → argv c = NULL → envp c = NULL →
  partial_cmd h0 (<[malloc_addr h0 := BReqCmd c]> h0) (malloc_addr h0) c [] [] [].
Proof.
  intros EP EA EE. split.
  - by rewrite lookup_insert_eq.
  - apply malloc_addr_nonnull.
  - by left.
  - by left.
  - by left.
  - apply NoDup_singleton.
  - apply (extends_malloc h0 [] h0), extends_nil.
Qed.

(** Storing a structure whose pointer fields own [LP], [LA] and [LE]. *)
Lemma partial_cmd_store h0 h cmd c c' LP LA LE :
  h !! cmd = Some (BReqCmd c) → cmd ≠ NULL →
  owned_string h (path c') LP →
  owned_vector h (argv c') LA →
  owned_vector h (envp c') LE →
  NoDup (footprint cmd LP LA LE) →
  extends h0 (footprint cmd LP LA LE) h →
  partial_cmd h0 (<[cmd := BReqCmd c']> h) cmd c' LP LA LE.
Proof.
  intros Hc Hnn HP HA HE Hnd Hext. unfold footprint in *.
  pose proof Hnd as Hnd'.
  apply NoDup_app in Hnd' as (_ & HdP & Hnd').
  apply NoDup_app in Hnd' as (_ & HdE & Hnd').
  apply NoDup_app in Hnd' as (_ & HdA & _).
  split; [by rewrite lookup_insert_eq|done| | | |done|].
  - eapply owned_string_agree; [|exact HP].
    intros x Hx. apply lookup_insert_ne. intros ->.
    apply (HdP _ Hx). rewrite !elem_of_app, list_elem_of_singleton. auto.
  - eapply owned_vector_agree; [|exact HA].
    intros x Hx. apply lookup_insert_ne. intros ->.
    apply (HdA _ Hx). by apply list_elem_of_singleton.
  - eapply owned_vector_agree; [|exact HE].
    intros x Hx. apply lookup_insert_ne. intros ->.
    apply (HdE _ Hx). rewrite !elem_of_app, list_elem_of_singleton. auto.
  - apply extends_insert; [done|]. unfold footprint.
    rewrite !elem_of_app, list_elem_of_singleton. auto.
Qed.

Lemma partial_cmd_update h0 h cmd c c' LP LA LE :
  partial_cmd h0 h cmd c LP LA LE →
  path c' = path c → argv c' = argv c → envp c' = envp c →
  partial_cmd h0 (<[cmd := BReqCmd c']> h) cmd c' LP LA LE.
Proof.
  intros [Hc Hnn HP HA HE Hnd Hext] EP EA EE.
  apply (partial_cmd_store _ _ _ c); try done; by rewrite ?EP, ?EA, ?EE.
Qed.

(** Blocks added on top of a command under construction are apart from
    its footprint. *)
Lemma NoDup_grow h0 h h' L Lnew :
  extends h0 L h → extends h Lnew h' → NoDup L → NoDup Lnew → NoDup (Lnew ++ L).
Proof.
  intros Hext (_ & _ & Hnew) HL HLnew. apply NoDup_app. split_and!; [done| |done].
  intros x Hx HxL. destruct (extends_live _ _ _ _ Hext HxL) as [b Hb].
  by rewrite (Hnew _ Hx) in Hb.
Qed.

Lemma owned_string_weaken h h' p L : h ⊆ h' → owned_string h p L → owned_string h' p L.
Proof.
  intros Hsub [[-> ->]|(Hp & [b Hb] & ->)]; [by left|right].
  split_and!; [done| |done]. exists b. by eapply lookup_weaken.
Qed.

Lemma owned_vector_weaken h h' a L : h ⊆ h' → owned_vector h a L → owned_vector h' a L.
Proof.
  intros Hsub [[-> ->]|(ps & ss & Hv & ->)]; [by left|right].
  exists ps, ss. split; [|done]. by eapply vector_at_weaken.
Qed.

Lemma partial_cmd_argv h0 h h' cmd c a ps ss :
  partial_cmd h0 h cmd c [] [] [] →
  building h h' a ps ss [NULL] →
  partial_cmd h0 (<[cmd := BReqCmd (set_argv a c)]> h') cmd (set_argv a c) [] (a :: ps) [].
Proof.
  intros [Hc Hnn HP HA HE Hnd Hext0] [Hext Hv]. unfold footprint in *. cbn [app] in *.
  apply (partial_cmd_store _ _ _ c); [by eapply lookup_weaken, Hext|done| | | | |].
  - eapply owned_string_weaken; [apply Hext|exact HP].
  - right. by exists ps, ss.
  - eapply owned_vector_weaken; [apply Hext|exact HE].
  - apply (NoDup_grow _ _ _ [cmd] (a :: ps) Hext0 Hext Hnd), Hv.
  - apply (extends_trans _ _ _ _ _ Hext0 Hext).
Qed.

Lemma partial_cmd_envp h0 h h' cmd c e qs ss LA :
  partial_cmd h0 h cmd c [] LA [] →
  building h h' e qs ss [NULL] →
  partial_cmd h0 (<[cmd := BReqCmd (set_envp e c)]> h') cmd (set_envp e c) [] LA (e :: qs).
Proof.
  intros [Hc Hnn HP HA HE Hnd Hext0] [Hext Hv]. unfold footprint in *. cbn [app] in *.
  apply (partial_cmd_store _ _ _ c); [by eapply lookup_weaken, Hext|done| | | | |].
  - eapply owned_string_weaken; [apply Hext|exact HP].
  - eapply owned_vector_weaken; [apply Hext|exact HA].
  - right. by exists qs, ss.
  - apply (NoDup_grow _ _ _ (LA ++ [cmd]) (e :: qs) Hext0 Hext Hnd), Hv.
  - apply (extends_trans _ _ _ _ _ Hext0 Hext).
Qed.

Lemma partial_cmd_path h0 h cmd c s LA LE :
  partial_cmd h0 h cmd c [] LA LE →
  partial_cmd h0 (<[cmd := BReqCmd (set_path (malloc_addr h) c)]> (<[malloc_addr h := BChars s]> h))
              cmd (set_path (malloc_addr h) c) [malloc_addr h] LA LE.
Proof.
  intros [Hc Hnn HP HA HE Hnd Hext0]. unfold footprint in *. cbn [app] in *.
  pose proof (malloc_addr_fresh h) as Hf.
  assert (extends h [malloc_addr h] (<[malloc_addr h := BChars s]> h)) as Hext1.
  { apply (extends_malloc h [] h), extends_nil. }
  apply (partial_cmd_store _ _ _ c); [by eapply lookup_weaken, Hext1|done| | | | |].
  - right. split_and!; [apply malloc_addr_nonnull|by rewrite lookup_insert_eq|done].
  - eapply owned_vector_weaken; [apply Hext1|exact HA].
  - eapply owned_vector_weaken; [apply Hext1|exact HE].
  - apply (NoDup_grow _ _ _ _ [malloc_addr h] Hext0 Hext1 Hnd), NoDup_singleton.
  - apply (extends_trans _ _ _ _ _ Hext0 Hext1).
Qed.

(** ** [loadReqCmd] *)

Lemma json_unpack_ex_Cmd_run root cmd c w :
  heap w !! cmd = Some (BReqCmd c) →
  ∃ c',
    json_unpack_ex_Cmd root cmd w
    = Some (match Cmd_fields root with
            | Some (p, a, e, _, _) => Some (p, a, e)
            | None => None
            end, set_heap (<[cmd := BReqCmd c']> (heap w)) w) ∧
    path c' = path c ∧ argv c' = argv c ∧ envp c' = envp c ∧ type c' = type c ∧
    input c' = input c ∧ output c' = output c ∧
    (∀ p a e ri ro, Cmd_fields root = Some (p, a, e, ri, ro) →
                    redirInput c' = ri ∧ redirOutput c' = ro).
Proof.
  intros Hc. unfold json_unpack_ex_Cmd, Cmd_fields.
  assert (Some ((None : option (string * json * json)), w)
          = Some (None, set_heap (<[cmd := BReqCmd c]> (heap w)) w)) as Hid.
  { by rewrite insert_id, set_heap_id. }
  destruct (json_is_object root); cbn [negb];
    [|exists c; split_and!; try done].
  destruct (json_object_get root "Path" ≫= unpack_s) as [p|]; cbn;
    [|exists c; split_and!; try done].
  destruct (json_object_get root "Args") as [a|]; cbn;
    [|exists c; split_and!; try done].
  destruct (json_object_get root "Env") as [e|]; cbn;
    [|exists c; split_and!; try done].
  destruct (json_object_get root "RedirInput" ≫= unpack_b) as [ri|]; cbn;
    [|exists c; split_and!; try done].
  rewrite (bind_run _ _ _ _ _ (update_cmd_live cmd c (set_redirInput ri) w Hc)).
  destruct (json_object_get root "RedirOutput" ≫= unpack_b) as [ro|]; cbn;
    [|exists (set_redirInput ri c); split_and!; try done].
  erewrite bind_run; cycle 1.
  { apply (update_cmd_live cmd (set_redirInput ri c) (set_redirOutput ro)).
    apply lookup_insert_eq. }
  cbn. rewrite insert_insert_eq.
  exists (set_redirOutput ro (set_redirInput ri c)).
  destruct (decide (json_object_size root = 5%nat)); split_and!; try done.
  by intros ????? [= <- <- <- <- <-].
Qed.

(** [abandon]: releasing a command under construction. *)
Lemma abandon_spec h0 cmd c LP LA LE w :
  partial_cmd h0 (heap w) cmd c LP LA LE →
  (freeReqCmd cmd ;; mret NULL) w = Some (NULL, set_heap h0 w).
Proof. intros Hp. by rewrite (bind_run _ _ _ _ _ (freeReqCmd_spec _ _ _ _ _ _ _ Hp)). Qed.

Lemma loadReqCmd_start root w :
  ∃ c,
    path c = NULL ∧ argv c = NULL ∧ envp c = NULL ∧ type c = REQ_TYPE_CMD ∧
    (∀ p a e ri ro, Cmd_fields root = Some (p, a, e, ri, ro) →
                    redirInput c = ri ∧ redirOutput c = ro) ∧
    loadReqCmd root w =
      let cmd := malloc_addr (heap w) in
      let w1 := set_heap (<[cmd := BReqCmd c]> (heap w)) w in
      let abandon : M addr := freeReqCmd cmd;; mret NULL in
      match Cmd_fields root with
      | None => abandon w1
      | Some (path_, args, env, _, _) =>
          (a ← loadArgv args;
           update_cmd cmd (set_argv a);;
           if decide (a = NULL) then abandon else
           e ← loadEnvp env;
           update_cmd cmd (set_envp e);;
           if decide (e = NULL) then abandon else
           r ← recvFds cmd;
           if decide (r ≠ 0) then abandon else
           p ← strdup path_;
           update_cmd cmd (set_path p);;
           mret cmd) w1
      end.
Proof.
  unfold loadReqCmd, newReqCmd. unfold mbind at 1, M_bind at 1. cbn [malloc].
  set (cmd := malloc_addr (heap w)).
  set (c0 := mkReqCmd _ _ _ _ _ _ _ _).
  destruct (json_unpack_ex_Cmd_run root cmd c0 (set_heap (<[cmd := BReqCmd c0]> (heap w)) w))
    as (c & Hrun & EP & EA & EE & ET & _ & _ & Hflags); [apply lookup_insert_eq|].
  exists c. split_and!; try done.
  unfold mbind at 1, M_bind at 1. rewrite Hrun. cbn [heap set_heap].
  rewrite insert_insert_eq.
  by destruct (Cmd_fields root) as [[[[[p a] e] ri] ro]|].
Qed.

(** The last stage: the descriptors, then the copy of the path. *)
Lemma loadReqCmd_recv h0 cmd c LA LE path_ w :
  partial_cmd h0 (heap w) cmd c [] LA LE →
  ∃ res w',
    (r ← recvFds cmd;
     if decide (r ≠ 0) then freeReqCmd cmd;; mret NULL else
     p ← strdup path_;
     update_cmd cmd (set_path p);;
     mret cmd) w = Some (res, w') ∧
    TubeFile w' = TubeFile w ∧
    ((res = NULL ∧ heap w' = h0 ∧ (redirInput c ≠ 0 ∨ redirOutput c ≠ 0)) ∨
     (res = cmd ∧ ∃ c',
        partial_cmd h0 (heap w') cmd c' [path c'] LA LE ∧
        heap w' !! path c' = Some (BChars path_) ∧
        same_but_fds (set_path (path c') c) c' ∧
        fds_received c' w' ∧
        (∀ x b, x ≠ cmd → heap w !! x = Some b → heap w' !! x = Some b))).
Proof.
  intros Hp.
  destruct (recvFds_run cmd c w (pc_block _ _ _ _ _ _ _ Hp))
    as (r & c1 & w1 & Hrun & Hheap & Hsame & Hfds).
  assert (TubeFile w1 = TubeFile w ∧ (r ≠ 0 → redirInput c ≠ 0 ∨ redirOutput c ≠ 0))
    as [Hfile Hwhy].
  { pose proof (pc_block _ _ _ _ _ _ _ Hp) as Hc.
    destruct (decide (redirInput c = 0)) as [Hi|Hi], (decide (redirOutput c = 0)) as [Ho|Ho].
    - rewrite (recvFds_none cmd c w Hc Hi Ho) in Hrun. by simplify_eq.
    - rewrite (recvFds_output_only cmd c w Hc Hi Ho) in Hrun. simplify_eq. auto.
    - destruct (decide (recvFd_value (next_recvmsg w) < 0)).
      + rewrite (recvFds_input_failed cmd c w Hc Hi) in Hrun by done. simplify_eq. auto.
      + rewrite (recvFds_input_only cmd c w Hc Hi Ho) in Hrun by lia. simplify_eq. auto.
    - destruct (decide (recvFd_value (next_recvmsg w) < 0)).
      + rewrite (recvFds_input_failed cmd c w Hc Hi) in Hrun by done. simplify_eq. auto.
      + rewrite (recvFds_both cmd c w Hc Hi Ho) in Hrun by lia. simplify_eq. auto. }
  destruct Hsame as (ET & EP & EA & EE & ERI & ERO).
  assert (partial_cmd h0 (heap w1) cmd c1 [] LA LE) as Hp1.
  { rewrite Hheap. by apply (partial_cmd_update _ _ _ c). }
  rewrite (bind_run _ _ _ _ _ Hrun).
  destruct (decide (r ≠ 0)) as [Hr|Hr].
  - exists NULL, (set_heap h0 w1). split_and!; [by apply (abandon_spec _ _ c1 [] LA LE)|done|].
    left. auto.
  - assert (r = 0) as -> by (destruct (decide (r = 0)); done).
    unfold strdup. unfold mbind at 1, M_bind at 1. cbn [malloc].
    pose proof (partial_cmd_path _ _ _ _ path_ _ _ Hp1) as Hp2.
    set (p := malloc_addr (heap w1)) in *.
    erewrite bind_run; cycle 1.
    { eapply (update_cmd_live cmd c1). cbn.
      rewrite lookup_insert_ne; [apply Hp1|].
      intros E. pose proof (malloc_addr_fresh (heap w1)) as Hf. fold p in Hf.
      rewrite E in Hf. by rewrite (pc_block _ _ _ _ _ _ _ Hp1) in Hf. }
    eexists _, _. split_and!; [done|done|]. right. split; [done|].
    exists (set_path p c1). cbn. split_and!.
    + exact Hp2.
    + rewrite lookup_insert_ne; [by rewrite lookup_insert_eq|].
      intros E. pose proof (malloc_addr_fresh (heap w1)) as Hf. fold p in Hf.
      rewrite <- E in Hf. by rewrite (pc_block _ _ _ _ _ _ _ Hp1) in Hf.
    + done.
    + destruct (Hfds eq_refl) as [Hin Hout]. split; cbn; auto.
    + intros x b Hx Hb. rewrite lookup_insert_ne by done.
      apply (lookup_weaken (heap w1)); [|apply insert_subseteq, malloc_addr_fresh].
      rewrite Hheap. by rewrite lookup_insert_ne.
Qed.

Lemma loadArgv_rejects args w :
  argv_ok args = false →
  ∃ msg, loadArgv args w = Some (NULL, set_stderr (stderr w ++ [msg]) w).
Proof.
  unfold argv_ok. destruct (json_is_array args) eqn:E; cbn [andb]; intros H.
  - destruct args; try discriminate E. eexists. by apply loadArgv_bad.
  - eexists. by apply loadArgv_not_array.
Qed.

Lemma loadArgv_accepts args w :
  argv_ok args = true →
  ∃ a ps h',
    loadArgv args w = Some (a, set_heap h' w) ∧
    building (heap w) h' a ps (json_string_value <$> json_array_elems args) [NULL] ∧
    length ps = json_array_size args.
Proof.
  unfold argv_ok. intros [E H]%andb_prop. destruct args; try discriminate E.
  by apply loadArgv_ok.
Qed.

Lemma loadEnvp_rejects env w :
  envp_ok env = false →
  ∃ msg, loadEnvp env w = Some (NULL, set_stderr (stderr w ++ [msg]) w).
Proof.
  unfold envp_ok. destruct (json_is_object env) eqn:E; cbn [andb]; intros H.
  - destruct env; try discriminate E. eexists. by apply loadEnvp_bad.
  - eexists. by apply loadEnvp_not_object.
Qed.

Lemma loadEnvp_accepts env w :
  envp_ok env = true →
  ∃ e qs h',
    loadEnvp env w = Some (e, set_heap h' w) ∧
    building (heap w) h' e qs (env_entry <$> json_object_members env) [NULL] ∧
    length qs = json_object_size env.
Proof.
  unfold envp_ok. intros [E H]%andb_prop. destruct env; try discriminate E.
  by apply loadEnvp_ok.
Qed.

Lemma owned_vector_nil h a : owned_vector h a [] → a = NULL.
Proof. by intros [[-> _]|(? & ? & _ & ?)]. Qed.

Lemma building_nonnull h h' a ps ss rest : building h h' a ps ss rest → a ≠ NULL.
Proof. intros [_ Hv] ->. apply (vec_nonnull _ _ _ _ _ Hv). by left. Qed.

Lemma partial_cmd_apart h0 h cmd c LP LA LE x :
  partial_cmd h0 h cmd c LP LA LE → x ∈ LP ++ LE ++ LA → x ≠ cmd.
Proof.
  intros Hp Hx ->. pose proof (pc_NoDup _ _ _ _ _ _ _ Hp) as Hnd. unfold footprint in Hnd.
  rewrite !app_assoc in Hnd. apply NoDup_app in Hnd as (_ & Hd & _).
  rewrite <- !app_assoc in Hd. apply (Hd _ Hx). by apply list_elem_of_singleton.
Qed.

(** The stage of the environment, and what follows it. *)
Lemma loadReqCmd_envp h0 cmd c LA path_ env w :
  partial_cmd h0 (heap w) cmd c [] LA [] →
  ∃ res w',
    (e ← loadEnvp env;
     update_cmd cmd (set_envp e);;
     if decide (e = NULL) then freeReqCmd cmd;; mret NULL else
     r ← recvFds cmd;
     if decide (r ≠ 0) then freeReqCmd cmd;; mret NULL else
     p ← strdup path_;
     update_cmd cmd (set_path p);;
     mret cmd) w = Some (res, w') ∧
    TubeFile w' = TubeFile w ∧
    ((res = NULL ∧ heap w' = h0 ∧
      (envp_ok env = false ∨ redirInput c ≠ 0 ∨ redirOutput c ≠ 0)) ∨
     (res = cmd ∧ envp_ok env = true ∧ ∃ c' qs,
        partial_cmd h0 (heap w') cmd c' [path c'] LA (envp c' :: qs) ∧
        heap w' !! path c' = Some (BChars path_) ∧
        vector_at (heap w') (envp c') qs (env_entry <$> json_object_members env) [NULL] ∧
        length qs = json_object_size env ∧
        same_but_fds (set_envp (envp c') (set_path (path c') c)) c' ∧
        fds_received c' w' ∧
        (∀ x b, x ≠ cmd → heap w !! x = Some b → heap w' !! x = Some b))).
Proof.
  intros Hp. pose proof (pc_block _ _ _ _ _ _ _ Hp) as Hc.
  destruct (envp_ok env) eqn:Hok.
  - destruct (loadEnvp_accepts env w Hok) as (e & qs & h' & Hrun & Hb & Hlen).
    rewrite (bind_run _ _ _ _ _ Hrun).
    pose proof (partial_cmd_envp _ _ _ _ _ _ _ _ _ Hp Hb) as Hp1.
    erewrite bind_run; cycle 1.
    { eapply (update_cmd_live cmd c). cbn. eapply lookup_weaken; [exact Hc|apply Hb]. }
    rewrite decide_False by by eapply building_nonnull.
    cbn [heap set_heap].
    destruct (loadReqCmd_recv h0 cmd (set_envp e c) LA (e :: qs) path_
                (set_heap (<[cmd:=BReqCmd (set_envp e c)]> h') (set_heap h' w)) Hp1)
      as (res & w' & Hrest & Hfile & Hres).
    exists res, w'. split_and!; [exact Hrest|done|].
    destruct Hres as [(-> & Hh & Hwhy)|(-> & c' & Hp2 & Hpath & Hsame & Hfds & Hframe)].
    + left. split_and!; [done|done|]. right. exact Hwhy.
    + right. split_and!; [done|done|]. exists c', qs.
      destruct Hsame as (ET & EP & EA & EE & ERI & ERO). cbn in ET, EP, EA, EE, ERI, ERO.
      rewrite EE. split_and!; try done.
      * eapply vector_at_agree; [|exact (proj2 Hb)].
        intros x Hx. cbn in Hframe.
        assert (x ≠ cmd) as Hxc.
        { apply (partial_cmd_apart _ _ _ _ _ _ _ _ Hp1). rewrite !elem_of_app. right. by left. }
        destruct (extends_live _ _ _ x (proj1 Hb) Hx) as [b Hbx].
        rewrite Hbx. apply Hframe; [done|]. by rewrite lookup_insert_ne.
      * intros x b Hx Hbx. apply Hframe; [done|]. cbn.
        rewrite lookup_insert_ne by done. eapply lookup_weaken; [exact Hbx|apply Hb].
  - destruct (loadEnvp_rejects env w Hok) as (msg & Hrun).
    rewrite (bind_run _ _ _ _ _ Hrun).
    erewrite bind_run; cycle 1.
    { by eapply (update_cmd_live cmd c). }
    rewrite decide_True by done.
    eexists _, _. split_and!.
    + eapply (abandon_spec h0 cmd _ [] LA []). cbn.
      apply (partial_cmd_update _ _ _ c); [done..|].
      cbn. symmetry. eapply owned_vector_nil, Hp.
    + done.
    + left. auto.
Qed.

(** The stage of the arguments, and what follows it. *)
Lemma loadReqCmd_argv h0 cmd c path_ args env w :
  partial_cmd h0 (heap w) cmd c [] [] [] →
  ∃ res w',
    (a ← loadArgv args;
     update_cmd cmd (set_argv a);;
     if decide (a = NULL) then freeReqCmd cmd;; mret NULL else
     e ← loadEnvp env;
     update_cmd cmd (set_envp e);;
     if decide (e = NULL) then freeReqCmd cmd;; mret NULL else
     r ← recvFds cmd;
     if decide (r ≠ 0) then freeReqCmd cmd;; mret NULL else
     p ← strdup path_;
     update_cmd cmd (set_path p);;
     mret cmd) w = Some (res, w') ∧
    TubeFile w' = TubeFile w ∧
    ((res = NULL ∧ heap w' = h0 ∧
      (argv_ok args && envp_ok env = false ∨ redirInput c ≠ 0 ∨ redirOutput c ≠ 0)) ∨
     (res = cmd ∧ argv_ok args && envp_ok env = true ∧ ∃ c' ps qs,
        partial_cmd h0 (heap w') cmd c' [path c'] (argv c' :: ps) (envp c' :: qs) ∧
        heap w' !! path c' = Some (BChars path_) ∧
        vector_at (heap w') (argv c') ps (json_string_value <$> json_array_elems args) [NULL] ∧
        vector_at (heap w') (envp c') qs (env_entry <$> json_object_members env) [NULL] ∧
        length ps = json_array_size args ∧
        length qs = json_object_size env ∧
        type c' = type c ∧ redirInput c' = redirInput c ∧ redirOutput c' = redirOutput c ∧
        fds_received c' w')).
Proof.
  intros Hp. pose proof (pc_block _ _ _ _ _ _ _ Hp) as Hc.
  destruct (argv_ok args) eqn:Hok.
  - destruct (loadArgv_accepts args w Hok) as (a & ps & h' & Hrun & Hb & Hlen).
    rewrite (bind_run _ _ _ _ _ Hrun).
    pose proof (partial_cmd_argv _ _ _ _ _ _ _ _ Hp Hb) as Hp1.
    erewrite bind_run; cycle 1.
    { eapply (update_cmd_live cmd c). cbn. eapply lookup_weaken; [exact Hc|apply Hb]. }
    rewrite decide_False by by eapply building_nonnull.
    cbn [heap set_heap].
    destruct (loadReqCmd_envp h0 cmd (set_argv a c) (a :: ps) path_ env
                (set_heap (<[cmd:=BReqCmd (set_argv a c)]> h') (set_heap h' w)) Hp1)
      as (res & w' & Hrest & Hfile & Hres).
    exists res, w'. split_and!; [exact Hrest|done|].
    destruct Hres as [(-> & Hh & Hwhy)|(-> & Hoke & c' & qs & Hp2 & Hpath & Hve & Hlenq & Hsame & Hfds & Hframe)].
    + left. split_and!; [done|done|]. cbn [andb]. exact Hwhy.
    + right. split_and!; [done|by rewrite Hoke|]. exists c', ps, qs.
      destruct Hsame as (ET & EP & EA & EE & ERI & ERO). cbn in ET, EP, EA, EE, ERI, ERO.
      rewrite EA. split_and!; try done.
      eapply vector_at_agree; [|exact (proj2 Hb)].
      intros x Hx. cbn in Hframe.
      assert (x ≠ cmd) as Hxc.
      { apply (partial_cmd_apart _ _ _ _ _ _ _ _ Hp1). rewrite !elem_of_app. right. by right. }
      destruct (extends_live _ _ _ x (proj1 Hb) Hx) as [b Hbx].
      rewrite Hbx. apply Hframe; [done|]. by rewrite lookup_insert_ne.
  - destruct (loadArgv_rejects args w Hok) as (msg & Hrun).
    rewrite (bind_run _ _ _ _ _ Hrun).
    erewrite bind_run; cycle 1.
    { by eapply (update_cmd_live cmd c). }
    rewrite decide_True by done.
    eexists _, _. split_and!.
    + eapply (abandon_spec h0 cmd _ [] [] []). cbn.
      apply (partial_cmd_update _ _ _ c); [done..| |done].
      cbn. symmetry. eapply owned_vector_nil, Hp.
    + done.
    + left. auto.
Qed.

Lemma loadReqCmd_spec root w :
  ∃ res w',
    loadReqCmd root w = Some (res, w') ∧
    TubeFile w' = TubeFile w ∧
    match Cmd_decode root with
    | None => res = NULL ∧ heap w' = heap w
    | Some (path_, args, env, ri, ro) =>
        (res = NULL ∧ heap w' = heap w ∧ (ri ≠ 0 ∨ ro ≠ 0)) ∨
        (res ≠ NULL ∧ ∃ c ps qs,
           ReqCmd_at (heap w) (heap w') res c ps qs path_
                     (json_string_value <$> args) (env_entry <$> env) ∧
           length ps = length args ∧ length qs = length env ∧
           redirInput c = ri ∧ redirOutput c = ro ∧
           fds_received c w')
    end.
Proof.
  destruct (loadReqCmd_start root w) as (c & EP & EA & EE & ET & Hflags & ->).
  cbv zeta. unfold Cmd_decode.
  pose proof (partial_cmd_new (heap w) c EP EA EE) as Hp.
  destruct (Cmd_fields root) as [[[[[path_ args] env] ri] ro]|].
  - destruct (Hflags _ _ _ _ _ eq_refl) as [ERI ERO].
    destruct (loadReqCmd_argv (heap w) _ c path_ args env
                (set_heap (<[malloc_addr (heap w) := BReqCmd c]> (heap w)) w) Hp)
      as (res & w' & Hrun & Hfile & Hres).
    exists res, w'. split_and!; [exact Hrun|done|].
    destruct Hres as [(-> & Hh & Hwhy)|(-> & Hok & c' & ps & qs & Hp' & Hpath & Hva & Hve & Hla & Hle & ET' & ERI' & ERO' & Hfds)].
    + destruct (argv_ok args && envp_ok env); [|done].
      left. split_and!; [done|done|]. destruct Hwhy as [?|Hwhy]; [done|].
      by rewrite <- ERI, <- ERO.
    + rewrite Hok. right. split; [apply malloc_addr_nonnull|].
      exists c', ps, qs. split_and!; try done; [|congruence..].
      split; [done|congruence|done..].
  - exists NULL, (set_heap (heap w) (set_heap (<[malloc_addr (heap w) := BReqCmd c]> (heap w)) w)).
    split_and!; [|done..].
    by apply (abandon_spec _ _ c [] [] []).
Qed.

(** ** [FreeReq] *)

Lemma load_type_cmd p c w :
  heap w !! p = Some (BReqCmd c) → load_type p w = Some (type c, w).
Proof. intros Hb. unfold load_type. by rewrite (bind_run _ _ _ _ _ (load_live _ _ _ Hb)). Qed.

Lemma ReqCmd_at_fresh h0 h cmd c ps qs path_ args envs x :
  ReqCmd_at h0 h cmd c ps qs path_ args envs →
  x ∈ blocks_of cmd c ps qs → h0 !! x = None.
Proof.
  intros [Hp _ _ _ _] Hx. destruct (pc_extends _ _ _ _ _ _ _ Hp) as (_ & _ & Hnew).
  apply Hnew. unfold footprint. unfold blocks_of in Hx. set_solver.
Qed.

(** Claim C9.  Releasing a fully constructed [Cmd] through [FreeReq], which
    dispatches to [freeReqCmd], frees the structure, the copy of the path,
    every element of [argv] and of [envp] and the two arrays themselves: the
    heap is [h0] again, the heap that has none of the blocks of the command.
    No descriptor is closed: the descriptors that are open and the companion
    socket are as they were. *)
Theorem FreeReq_releases_memory_not_descriptors
    (h0 : gmap addr block) (w : world) (cmd : addr) (c : ReqCmd) (ps qs : list addr)
    (path_ : string) (args envs : list string) :
  ReqCmd_at h0 (heap w) cmd c ps qs path_ args envs →
  ∃ w', FreeReq cmd w = Some ((), w') ∧
        heap w' = h0 ∧
        (∀ x, x ∈ blocks_of cmd c ps qs → heap w' !! x = None) ∧
        open_fds w' = open_fds w ∧
        FdTubeFd w' = FdTubeFd w.
Proof.
  intros Hat. exists (set_heap h0 w). split_and!; try done.
  - unfold FreeReq.
    rewrite (bind_run _ _ _ _ _ (load_type_cmd _ _ _ (pc_block _ _ _ _ _ _ _ (rc_owned _ _ _ _ _ _ _ _ _ Hat)))).
    rewrite (rc_type _ _ _ _ _ _ _ _ _ Hat).
    eapply freeReqCmd_spec, Hat.
  - intros x Hx. by eapply ReqCmd_at_fresh.
Qed.


Lemma unpack_s_Some v : is_Some (unpack_s v) ↔ json_is_string v = true.
Proof. destruct v; cbn; split; (done || by intros [??] || eauto). Qed.

Lemma unpack_b_Some v : is_Some (unpack_b v) ↔ json_is_boolean v = true.
Proof. unfold unpack_b. destruct (json_is_boolean v); split; (done || by intros [??] || eauto). Qed.

Lemma unpack_b_value v z : unpack_b v = Some z → z = if json_is_true v then 1 else 0.
Proof. unfold unpack_b. destruct (json_is_boolean v); [|done]. by intros [= <-]. Qed.

Lemma Cmd_decode_schema doc :
  is_Some (Cmd_decode doc) ↔ Cmd_schema argv_ok envp_ok doc = true.
Proof.
  unfold Cmd_decode, Cmd_fields, Cmd_schema, has_field.
  destruct (json_is_object doc); cbn [andb]; [|split; [by intros [??]|done]].
  destruct (json_object_get doc "Path") as [vp|]; cbn;
    [|rewrite andb_false_r; split; [by intros [??]|done]].
  pose proof (unpack_s_Some vp) as Hs. destruct (unpack_s vp) as [p|]; cbn;
    [rewrite (proj1 Hs) by eauto|
     destruct (json_is_string vp); [by destruct (proj2 Hs eq_refl)|];
     rewrite andb_false_r; split; [by intros [??]|done]].
  destruct (json_object_get doc "Args") as [a|]; cbn;
    [|rewrite andb_false_r; split; [by intros [??]|done]].
  destruct (json_object_get doc "Env") as [e|]; cbn;
    [|rewrite andb_false_r; split; [by intros [??]|done]].
  destruct (json_object_get doc "RedirInput") as [vi|]; cbn;
    [|rewrite !andb_false_r; split; [by intros [??]|done]].
  pose proof (unpack_b_Some vi) as Hi. destruct (unpack_b vi) as [ri|]; cbn;
    [rewrite (proj1 Hi) by eauto|
     destruct (json_is_boolean vi); [by destruct (proj2 Hi eq_refl)|];
     rewrite !andb_false_r; split; [by intros [??]|done]].
  destruct (json_object_get doc "RedirOutput") as [vo|]; cbn;
    [|rewrite !andb_false_r; split; [by intros [??]|done]].
  pose proof (unpack_b_Some vo) as Ho. destruct (unpack_b vo) as [ro|]; cbn;
    [rewrite (proj1 Ho) by eauto|
     destruct (json_is_boolean vo); [by destruct (proj2 Ho eq_refl)|];
     rewrite !andb_false_r; split; [by intros [??]|done]].
  rewrite !andb_true_r.
  destruct (decide (json_object_size doc = 5%nat)) as [E|E].
  - rewrite bool_decide_eq_true_2 by done. cbn [andb].
    destruct (argv_ok a && envp_ok e); split; (done || by intros [??] || eauto).
  - rewrite bool_decide_eq_false_2 by done. cbn [andb]. split; [by intros [??]|done].
Qed.

Lemma Cmd_decode_flags doc path_ args env ri ro :
  Cmd_decode doc = Some (path_, args, env, ri, ro) →
  redirects_off doc = true → ri = 0 ∧ ro = 0.
Proof.
  unfold Cmd_decode, Cmd_fields, redirects_off, has_field.
  destruct (json_is_object doc); [|done].
  destruct (json_object_get doc "Path" ≫= unpack_s) as [p|]; [|done]. cbn.
  destruct (json_object_get doc "Args") as [a|]; [|done]. cbn.
  destruct (json_object_get doc "Env") as [e|]; [|done]. cbn.
  destruct (json_object_get doc "RedirInput") as [vi|]; [|done]. cbn.
  destruct (unpack_b vi) as [ri'|] eqn:Ei; [|done]. cbn.
  destruct (json_object_get doc "RedirOutput") as [vo|]; [|done]. cbn.
  destruct (unpack_b vo) as [ro'|] eqn:Eo; [|done]. cbn.
  apply unpack_b_value in Ei, Eo.
  destruct (decide _); [|done]. destruct (argv_ok a && envp_ok e); [|done].
  intros [= <- <- <- <- <-] [Hi Ho]%andb_prop.
  destruct (json_is_true vi), (json_is_true vo); done.
Qed.

Lemma assoc_get_elem_of ms key v : assoc_get ms key = Some v → (key, v) ∈ ms.
Proof.
  induction ms as [|[k v'] ms IH]; [done|]. cbn.
  destruct (String.eqb k key) eqn:E.
  - apply String.eqb_eq in E as ->. intros [= ->]. by left.
  - intros H. right. by apply IH.
Qed.

Lemma assoc_get_NoDup ms key v :
  NoDup ms.*1 → (key, v) ∈ ms → assoc_get ms key = Some v.
Proof.
  induction ms as [|[k v'] ms IH]; [by inversion 2|]. cbn.
  intros [Hk Hnd]%NoDup_cons [[= <- <-]|Hin]%elem_of_cons.
  - by rewrite String.eqb_refl.
  - destruct (String.eqb k key) eqn:E; [|by apply IH].
    apply String.eqb_eq in E as ->. destruct Hk.
    apply list_elem_of_fmap. by exists (key, v).
Qed.

Lemma json_is_boolean_inv v : json_is_boolean v = true → ∃ b, v = json_boolean b.
Proof. destruct v; try done; intros _; [by exists true|by exists false]. Qed.

Lemma Cmd_schema_document args_ty env_ty doc :
  Cmd_schema args_ty env_ty doc = true ↔ Cmd_document args_ty env_ty doc.
Proof.
  unfold Cmd_schema, Cmd_document, has_field, json_object_get, json_object_size. split.
  - intros H. repeat (apply andb_prop in H as [H ?]).
    destruct doc as [ms| | | | | | |]; try discriminate H. cbn [json_object_members] in *.
    destruct (assoc_get ms "Path") as [vp|] eqn:EP; [|done].
    destruct (assoc_get ms "Args") as [va|] eqn:EA; [|done].
    destruct (assoc_get ms "Env") as [ve|] eqn:EE; [|done].
    destruct (assoc_get ms "RedirInput") as [vi|] eqn:EI; [|done].
    destruct (assoc_get ms "RedirOutput") as [vo|] eqn:EO; [|done].
    destruct vp as [| |path_| | | | |]; try done.
    destruct (json_is_boolean_inv vi) as [ri ->]; [done|].
    destruct (json_is_boolean_inv vo) as [ro ->]; [done|].
    exists ms, path_, va, ve, ri, ro. split_and!; try done.
    symmetry. apply submseteq_length_Permutation.
    + apply NoDup_submseteq.
      * apply (NoDup_fmap_1 fst). by apply (bool_decide_unpack _).
      * intros [k v] Hin. unfold Cmd_members in Hin.
        repeat (apply elem_of_cons in Hin as [[= -> ->]|Hin]; [by apply assoc_get_elem_of|]).
        by apply elem_of_nil in Hin.
    + cbn. by rewrite (bool_decide_eq_true_1 _ ltac:(eassumption)).
  - intros (ms & path_ & args & env & ri & ro & -> & Hperm & Ha & He).
    cbn [json_is_object json_object_members andb].
    rewrite (bool_decide_eq_true_2 (length ms = 5%nat)) by by rewrite Hperm.
    assert (NoDup ms.*1) as Hnd.
    { rewrite Hperm. by apply (bool_decide_unpack _). }
    assert (∀ k v, (k, v) ∈ Cmd_members path_ args env ri ro → assoc_get ms k = Some v) as Hget.
    { intros k v Hin. apply assoc_get_NoDup; [done|]. by rewrite Hperm. }
    rewrite (Hget "Path" (JString path_)) by (unfold Cmd_members; set_solver).
    rewrite (Hget "Args" args) by (unfold Cmd_members; set_solver).
    rewrite (Hget "Env" env) by (unfold Cmd_members; set_solver).
    rewrite (Hget "RedirInput" (json_boolean ri)) by (unfold Cmd_members; set_solver).
    rewrite (Hget "RedirOutput" (json_boolean ro)) by (unfold Cmd_members; set_solver).
    rewrite Ha, He. by destruct ri, ro.
Qed.

(** Claim C1, amended.  For a document whose two redirect flags are not
    [true], [loadReqCmd] returns a command if and only if the document is an
    object whose members are, in any order, exactly the five fields [Path]
    (a string), [Args] (an array whose elements are all strings), [Env] (an
    object whose values are all strings), [RedirInput] and [RedirOutput]
    (booleans); on every other document the result is [NULL]. *)
Theorem loadReqCmd_succeeds_iff_schema (doc : json) (w : world) :
  redirects_off doc = true →
  ∃ res w',
    loadReqCmd doc w = Some (res, w') ∧
    (res ≠ NULL ↔ Cmd_document argv_ok envp_ok doc).
Proof.
  intros Hoff. destruct (loadReqCmd_spec doc w) as (res & w' & Hrun & _ & Hres).
  exists res, w'. split; [done|]. rewrite <- Cmd_schema_document, <- Cmd_decode_schema.
  destruct (Cmd_decode doc) as [[[[[path_ args] env] ri] ro]|] eqn:Hdec.
  - destruct (Cmd_decode_flags _ _ _ _ _ _ Hdec Hoff) as [-> ->].
    destruct Hres as [(_ & _ & [?|?])|(Hnn & _)]; [done..|].
    split; eauto.
  - destruct Hres as [-> _]. split; [done|by intros [??]].
Qed.

(** ** The claims on the loaders *)

Lemma read_strings_vector h a ps ss rest :
  vector_at h a ps ss (NULL :: rest) → read_strings h a = Some ss.
Proof.
  intros [Ha _ Hnn Hss]. unfold read_strings. rewrite Ha.
  assert (NULL ∉ ps) as Hnn' by (intros ?; apply Hnn; by right). clear Ha Hnn.
  induction Hss as [|p s ps ss Hp _ IH]; cbn.
  - by rewrite decide_True.
  - rewrite decide_False by (intros ->; apply Hnn'; by left).
    rewrite Hp, IH; [done|]. intros ?. apply Hnn'. by right.
Qed.

Lemma loadArgv_result root w a w' :
  loadArgv root w = Some (a, w') → a ≠ NULL →
  ∃ ps, w' = set_heap (heap w') w ∧
        building (heap w) (heap w') a ps (json_string_value <$> json_array_elems root) [NULL] ∧
        length ps = json_array_size root.
Proof.
  intros Hrun Hnn. destruct (argv_ok root) eqn:Hok.
  - destruct (loadArgv_accepts root w Hok) as (a' & ps & h' & Hrun' & Hb & Hlen).
    rewrite Hrun in Hrun'. simplify_eq. by exists ps.
  - destruct (loadArgv_rejects root w Hok) as (msg & Hrun'). rewrite Hrun in Hrun'. by simplify_eq.
Qed.

Lemma loadEnvp_result root w e w' :
  loadEnvp root w = Some (e, w') → e ≠ NULL →
  ∃ qs, w' = set_heap (heap w') w ∧
        building (heap w) (heap w') e qs (env_entry <$> json_object_members root) [NULL] ∧
        length qs = json_object_size root.
Proof.
  intros Hrun Hnn. destruct (envp_ok root) eqn:Hok.
  - destruct (loadEnvp_accepts root w Hok) as (e' & qs & h' & Hrun' & Hb & Hlen).
    rewrite Hrun in Hrun'. simplify_eq. by exists qs.
  - destruct (loadEnvp_rejects root w Hok) as (msg & Hrun'). rewrite Hrun in Hrun'. by simplify_eq.
Qed.

(** Claim C6.  When [loadEnvp] accepts a mapping, the vector it returns
    holds one string per pair, the concatenation of the key, of [=] and of
    the value, in the order in which the pairs are enumerated.  Whatever
    that order, the strings of the vector are exactly the strings
    [key=value] of the pairs of the mapping. *)
Theorem loadEnvp_key_eq_value (members : list (string * json)) (w : world)
    (e : addr) (w' : world) :
  loadEnvp (JObject members) w = Some (e, w') → e ≠ NULL →
  ∃ out,
    read_strings (heap w') e = Some out ∧
    length out = length members ∧
    Forall2 (λ s kv, json_is_string kv.2 = true ∧
                     s = kv.1 +:+ "=" +:+ json_string_value kv.2) out members ∧
    (∀ s, s ∈ out ↔ ∃ key value, (key, JString value) ∈ members ∧
                                  s = key +:+ "=" +:+ value).
Proof.
  intros Hrun Hnn.
  assert (env_values_ok members = true) as Hok.
  { destruct (env_values_ok members) eqn:E; [done|].
    rewrite (loadEnvp_bad _ _ E) in Hrun. by simplify_eq. }
  destruct (loadEnvp_result _ _ _ _ Hrun Hnn) as (qs & _ & [_ Hv] & _).
  cbn [json_object_members] in Hv.
  exists (env_entry <$> members). split_and!.
  - by eapply read_strings_vector.
  - by rewrite length_fmap.
  - clear -Hok. induction members as [|[k v] members IH]; [constructor|].
    unfold env_values_ok in Hok. cbn in Hok. apply andb_prop in Hok as [Hv Hok].
    constructor; [done|by apply IH].
  - intros s. rewrite list_elem_of_fmap. split.
    + intros ([k v] & -> & Hin). exists k, (json_string_value v). split; [|done].
      assert (json_is_string v = true) as Hstr.
      { unfold env_values_ok in Hok. rewrite forallb_forall in Hok.
        apply (Hok (k, v)). by apply list_elem_of_In. }
      destruct v; try discriminate Hstr. done.
    + intros (k & v & Hin & ->). by exists (k, JString v).
Qed.

(** Claim C8.  On an array with an element that is not a string, [loadArgv]
    writes the diagnostic of the spec's [ArgNotString] and returns [NULL],
    and the world differs from the one on entry by that diagnostic only: the
    array and every string converted before the bad element have been
    released. *)
Theorem loadArgv_non_string_releases (args : list json) (w : world) :
  forallb json_is_string args = false →
  loadArgv (JArray args) w
  = Some (NULL, set_stderr (stderr w ++ ["argv element not string" +:+ LF]) w).
Proof. apply loadArgv_bad. Qed.

(** Claim C10.  A vector returned by [loadArgv] or by [loadEnvp] is
    [NULL]-terminated: for an input of [n] elements (or pairs) the array has
    [n + 1] cells, the cells at [0 .. n - 1] are not [NULL] and the cell at
    [n] is [NULL]. *)
Theorem loaded_vector_null_terminated (l : loader) (root : json) (w : world)
    (a : addr) (w' : world) :
  run_loader l root w = Some (a, w') → a ≠ NULL →
  ∃ cells,
    heap w' !! a = Some (BPtrs cells) ∧
    length cells = S (input_size l root) ∧
    (∀ i, (i < input_size l root)%nat → ∃ p, cells !! i = Some p ∧ p ≠ NULL) ∧
    cells !! input_size l root = Some NULL.
Proof.
  intros Hrun Hnn.
  assert (∃ ps ss, vector_at (heap w') a ps ss [NULL] ∧ length ps = input_size l root)
    as (ps & ss & [Ha _ Hps _] & Hlen).
  { destruct l; cbn in Hrun.
    - destruct (loadArgv_result _ _ _ _ Hrun Hnn) as (ps & _ & [_ Hv] & Hlen). eauto.
    - destruct (loadEnvp_result _ _ _ _ Hrun Hnn) as (ps & _ & [_ Hv] & Hlen). eauto. }
  exists (ps ++ [NULL]). split_and!.
  - done.
  - rewrite length_app. cbn. lia.
  - intros i Hi. rewrite <- Hlen in Hi. destruct (lookup_lt_is_Some_2 ps i Hi) as [p Hp].
    exists p. split; [by apply lookup_app_l_Some|].
    intros ->. apply Hps. right. by eapply list_elem_of_lookup_2.
  - rewrite <- Hlen. by apply list_lookup_middle.
Qed.

(** ** The claims on the receiver *)



(** ** The claims on the driver *)

(** Claim C7.  On a parsed document that is an object, [loadReq] fails
    with the diagnostic of the spec's [EmptyRequest] when the object has no
    key; otherwise it looks at the first enumerated key only: for [Cmd] its
    result is that of [loadReqCmd] on the value, for any other key it fails
    with the diagnostic of the spec's [UnknownRequestKind]. *)
Theorem loadReq_dispatch (members : list (string * json)) (w : world) :
  loadReq (JObject members) w =
    match members with
    | [] => Some (NULL, set_stderr (stderr w ++ ["empty req" +:+ LF]) w)
    | (key, value) :: _ =>
        if decide (key = "Cmd") then loadReqCmd value w
        else Some (NULL, set_stderr (stderr w ++ ["bad req type " +:+ key +:+ LF]) w)
    end.
Proof.
  unfold loadReq. cbn [json_is_object negb json_object_members].
  destruct members as [|[key value] rest]; [done|].
  destruct (decide (key = "Cmd")) as [->|Hne]; [done|].
  by rewrite (proj2 (String.eqb_neq key "Cmd") Hne).
Qed.

Lemma RecvReq_eof json_loadf w :
  feof (TubeFile w) = true →
  RecvReq json_loadf w
  = Some ((malloc_addr (heap w), None),
          set_heap (<[malloc_addr (heap w) := BReqExit REQ_TYPE_EXIT]> (heap w)) w).
Proof.
  intros Heof. unfold RecvReq. unfold mbind at 1, M_bind at 1, get_TubeFile.
  by rewrite Heof.
Qed.


(** The amended claim C1 on the document [doc_ls]. *)
Lemma loadReqCmd_schema_witness :
  redirects_off doc_ls = true ∧
  ∃ res w', loadReqCmd doc_ls world0 = Some (res, w') ∧
            (res ≠ NULL ↔ Cmd_document argv_ok envp_ok doc_ls).
Proof.
  split; [reflexivity|]. apply (loadReqCmd_succeeds_iff_schema doc_ls world0). reflexivity.
Defined.

(** Claim C1 as stated takes any array for [Args].  The document
    [doc_args_not_strings] has both flags false and exactly the five fields,
    with [Args] an array and [Env] a mapping, and [loadReqCmd] returns
    [NULL] on it: the element of [Args] is a number. *)
Lemma loadReqCmd_array_of_non_strings :
  redirects_off doc_args_not_strings = true ∧
  schema_as_stated doc_args_not_strings ∧
  loadReqCmd doc_args_not_strings world0
  = Some (NULL, set_stderr ["argv element not string" +:+ LF] world0).
Proof.
  split_and!; [reflexivity| |vm_compute; reflexivity].
  by exists [("Path", JString "/bin/ls"); ("Args", JArray [JInteger 1]);
             ("Env", JObject []); ("RedirInput", JFalse); ("RedirOutput", JFalse)],
            "/bin/ls", (JArray [JInteger 1]), (JObject []), false, false.
Qed.

(** Claim C6 on the mapping of the spec's example. *)
Lemma loadEnvp_key_eq_value_witness :
  ∃ out,
    read_strings (heap world_env) 1%nat = Some out ∧
    length out = 2%nat ∧
    Forall2 (λ s kv, json_is_string kv.2 = true ∧
                     s = kv.1 +:+ "=" +:+ json_string_value kv.2)
            out [("A", JString "1"); ("B", JString "2")] ∧
    (∀ s, s ∈ out ↔ ∃ key value,
            (key, JString value) ∈ [("A", JString "1"); ("B", JString "2")] ∧
            s = key +:+ "=" +:+ value).
Proof.
  apply (loadEnvp_key_eq_value [("A", JString "1"); ("B", JString "2")] world0 1%nat world_env).
  - vm_compute. reflexivity.
  - discriminate.
Defined.

(** Claim C8 on an array whose second element is a number. *)
Lemma loadArgv_non_string_releases_witness :
  loadArgv (JArray [JString "a"; JInteger 1; JString "b"]) world0
  = Some (NULL, set_stderr (stderr world0 ++ ["argv element not string" +:+ LF]) world0).
Proof.
  apply (loadArgv_non_string_releases [JString "a"; JInteger 1; JString "b"] world0).
  reflexivity.
Defined.

(** Claim C10 on an array of two strings. *)
Lemma loaded_vector_null_terminated_witness :
  ∃ cells,
    heap world_argv !! 1%nat = Some (BPtrs cells) ∧
    length cells = 3%nat ∧
    (∀ i, (i < 2)%nat → ∃ p, cells !! i = Some p ∧ p ≠ NULL) ∧
    cells !! 2%nat = Some NULL.
Proof.
  apply (loaded_vector_null_terminated Argv (JArray [JString "a"; JString "b"])
           world0 1%nat world_argv).
  - vm_compute. reflexivity.
  - discriminate.
Defined.

(** [world_cmd] holds a complete command at address 1. *)
Lemma world_cmd_ReqCmd_at :
  ReqCmd_at ∅ (heap world_cmd) 1%nat cmd_ls [3%nat] [5%nat] "/bin/ls" ["ls"] ["A=1"].
Proof.
  assert (vector_at (heap world_cmd) 2%nat [3%nat] ["ls"] [NULL]) as Ha.
  { split; [reflexivity|by apply (bool_decide_unpack _)|by apply (bool_decide_unpack _)|].
    repeat constructor. }
  assert (vector_at (heap world_cmd) 4%nat [5%nat] ["A=1"] [NULL]) as He.
  { split; [reflexivity|by apply (bool_decide_unpack _)|by apply (bool_decide_unpack _)|].
    repeat constructor. }
  split; [|reflexivity|reflexivity|exact Ha|exact He].
  split.
  - reflexivity.
  - discriminate.
  - right. split_and!; [discriminate|by eexists|reflexivity].
  - right. by exists [3%nat], ["ls"].
  - right. by exists [5%nat], ["A=1"].
  - by apply (bool_decide_unpack _).
  - split_and!.
    + apply map_empty_subseteq.
    + vm_compute. reflexivity.
    + intros x _. apply lookup_empty.
Defined.

(** Claim C9 on that command: descriptors 5 and 6 stay open. *)
Lemma FreeReq_releases_witness :
  ∃ w', FreeReq 1%nat world_cmd = Some ((), w') ∧
        heap w' = ∅ ∧
        (∀ x, x ∈ blocks_of 1%nat cmd_ls [3%nat] [5%nat] → heap w' !! x = None) ∧
        open_fds w' = [5; 6] ∧
        FdTubeFd w' = [].
Proof.
  exact (FreeReq_releases_memory_not_descriptors ∅ world_cmd 1%nat cmd_ls [3%nat] [5%nat]
           "/bin/ls" ["ls"] ["A=1"] world_cmd_ReqCmd_at).
Defined.


(** The guard of [RecvReq] is [feof], which tests the indicator and does not
    look at the stream.  While the indicator is clear the parser runs, and
    when it reports an error the call returns [NULL] with the message in
    [*err], whatever is or is not left to read. *)
Lemma RecvReq_parse_error json_loadf w f error :
  feof (TubeFile w) = false →
  json_loadf (TubeFile w) = (f, inl error) →
  RecvReq json_loadf w
  = Some ((NULL, Some (malloc_addr (heap w))),
          mkWorld (<[malloc_addr (heap w) :=
                       BChars ("json: error on line " +:+ pretty (line error)
                               +:+ ": " +:+ text error)]> (heap w))
                  (stderr w) (FdTubeFd w) (open_fds w) f).
Proof.
  intros Heof Hparse. unfold RecvReq.
  unfold mbind at 1, M_bind at 1, get_TubeFile. rewrite Heof.
  unfold mbind at 1, M_bind at 1, json_loadf_TubeFile. by rewrite Hparse.
Qed.



(** ** Remarks *)

(** Documents that break the schema in one place: a field is missing, a
    field is extra, a field has the wrong type. *)
Example loadReqCmd_missing_field :
  loadReqCmd (JObject [("Path", JString "/bin/ls"); ("Args", JArray []);
                       ("RedirInput", JFalse); ("RedirOutput", JFalse)]) world0
  = Some (NULL, world0).
Proof. vm_compute. reflexivity. Qed.

Example loadReqCmd_extra_field :
  loadReqCmd (JObject [("Path", JString "/bin/ls"); ("Args", JArray []);
                       ("Env", JObject []); ("RedirInput", JFalse);
                       ("RedirOutput", JFalse); ("Cwd", JString "/")]) world0
  = Some (NULL, world0).
Proof. vm_compute. reflexivity. Qed.

Example loadReqCmd_mistyped_field :
  loadReqCmd (Cmd_doc (JArray []) (JObject []) JFalse (JInteger 0)) world0
  = Some (NULL, world0).
Proof. vm_compute. reflexivity. Qed.

(** [Args: []] is a legal command with no argument. *)
Example loadReqCmd_no_argument :
  ∃ w', loadReqCmd (Cmd_doc (JArray []) (JObject []) JFalse JFalse) world0
        = Some (1%nat, w') ∧
        read_strings (heap w') 2%nat = Some [] ∧
        read_strings (heap w') 3%nat = Some [].
Proof. eexists. split_and!; [vm_compute; reflexivity|reflexivity..]. Qed.

(** The two documents of the spec that are not commands. *)
Example loadReq_empty_object :
  loadReq (JObject []) world0 = Some (NULL, set_stderr ["empty req" +:+ LF] world0).
Proof. reflexivity. Qed.

Example loadReq_unknown_kind :
  loadReq (JObject [("Foo", JObject [])]) world0
  = Some (NULL, set_stderr ["bad req type Foo" +:+ LF] world0).
Proof. reflexivity. Qed.

(** Whatever makes [loadReq] return [NULL], the caller of [RecvReq] gets
    the one message of the driver in [*err]. *)
Lemma RecvReq_rejected json_loadf w f root w1 :
  feof (TubeFile w) = false →
  json_loadf (TubeFile w) = (f, inr root) →
  loadReq root (mkWorld (heap w) (stderr w) (FdTubeFd w) (open_fds w) f) = Some (NULL, w1) →
  RecvReq json_loadf w
  = Some ((NULL, Some (malloc_addr (heap w1))),
          set_heap (<[malloc_addr (heap w1) :=
                        BChars "json: command doesn't conform to schema"]> (heap w1)) w1).
Proof.
  intros Heof Hparse Hload. unfold RecvReq.
  unfold mbind at 1, M_bind at 1, get_TubeFile. rewrite Heof.
  unfold mbind at 1, M_bind at 1, json_loadf_TubeFile. rewrite Hparse.
  rewrite (bind_run _ _ _ _ _ Hload). by rewrite decide_True.
Qed.

(** req.c never closes a descriptor.  When the input descriptor has been
    received and the receive for the output fails, [loadReqCmd] gives the
    memory of the command back and returns [NULL], and descriptor 5 stays
    open. *)
Example loadReqCmd_leaves_descriptor_open :
  let doc := Cmd_doc (JArray [JString "ls"]) (JObject []) JTrue JTrue in
  let w := mkWorld ∅ [] [mkRecv 1 20 5; mkRecv 1 12 0] [] (mkFILE EmptyString false) in
  ∃ w', loadReqCmd doc w = Some (NULL, w') ∧ heap w' = ∅ ∧ open_fds w' = [5].
Proof. eexists. split_and!; [vm_compute; reflexivity|reflexivity..]. Qed.

(** [feof] tests the end-of-file indicator, which the C library sets when a
    read has hit the end.  On a stream with nothing left to read whose
    indicator is still clear, [RecvReq] runs the parser and reports its
    error; the parser's failed read sets the indicator, and the call after
    that one yields the [Exit] request. *)
Example RecvReq_before_the_indicator_is_set :
  ∃ r1 r2 w',
    calls (RecvReq no_document) 2 world0 = Some ([r1; r2], w') ∧
    r1.1 = NULL ∧
    (∃ e, r1.2 = Some e ∧
          heap w' !! e = Some (BChars "json: error on line 1: '[' or '{' expected near end of file")) ∧
    is_Exit (heap w') r2.
Proof.
  eexists _, _, _. split; [vm_compute; reflexivity|].
  split_and!; [reflexivity|eexists; split; reflexivity|].
  unfold is_Exit. split_and!; [discriminate|reflexivity|reflexivity].
Qed.

(** * Further properties of the code *)

Lemma preserves_bind {A B} (R : relation world) `{!Transitive R}
    (m : M A) (f : A → M B) :
  preserves R m → (∀ a, preserves R (f a)) → preserves R (m ≫= f).
Proof.
  intros Hm Hf w b w'. unfold mbind, M_bind.
  destruct (m w) as [[a w1]|] eqn:E; [|done].
  intros Hrun. etrans; [by eapply Hm|by eapply Hf].
Qed.

Lemma preserves_ret {A} (R : relation world) `{!Reflexive R} (a : A) :
  preserves R (mret a).
Proof. intros w a' w' [= <- <-]. reflexivity. Qed.

Lemma preserves_fault {A} (R : relation world) : preserves R (@fault A).
Proof. by intros w a w'. Qed.

Lemma preserves_if {A} (R : relation world) (P : Prop) `{!Decision P} (m1 m2 : M A) :
  preserves R m1 → preserves R m2 → preserves R (if decide P then m1 else m2).
Proof. by destruct (decide P). Qed.

#[global] Instance heap_only_refl : Reflexive heap_only.
Proof. intros w. unfold heap_only. by rewrite set_heap_id. Qed.

#[global] Instance heap_only_trans : Transitive heap_only.
Proof. intros w1 w2 w3 H12 H23. unfold heap_only in *. rewrite H23, H12. done. Qed.

#[global] Instance io_grows_refl : Reflexive io_grows.
Proof. intros w. by split_and!. Qed.

#[global] Instance io_grows_trans : Transitive io_grows.
Proof.
  intros w1 w2 w3 (E12 & O12 & Q12) (E23 & O23 & Q23).
  split_and!; by etrans.
Qed.

Lemma heap_only_io_grows w w' : heap_only w w' → io_grows w w'.
Proof. intros ->. by split_and!. Qed.

Lemma preserves_weaken {A} (R R' : relation world) (m : M A) :
  (∀ w w', R w w' → R' w w') → preserves R m → preserves R' m.
Proof. intros HR Hm w a w' Hrun. by eapply HR, Hm. Qed.

#[global] Instance only_frees_refl : Reflexive only_frees.
Proof. intros w. split; [by rewrite set_heap_id|done]. Qed.

#[global] Instance only_frees_trans : Transitive only_frees.
Proof.
  intros w1 w2 w3 [H12 S12] [H23 S23]. split; [|by etrans].
  rewrite H23, H12. done.
Qed.

Lemma only_frees_heap_only w w' : only_frees w w' → heap_only w w'.
Proof. by intros [? _]. Qed.

(** The primitives of the heap. *)
Lemma malloc_heap_only b : preserves heap_only (malloc b).
Proof. by intros w a w' [= <- <-]. Qed.

Lemma store_heap_only p b : preserves heap_only (store p b).
Proof. intros w a w'. unfold store. destruct (heap w !! p); [|done]. by intros [= <- <-]. Qed.

Lemma free_only_frees p : preserves only_frees (free p).
Proof.
  intros w a w'. unfold free. destruct (decide (p = NULL)).
  - intros [= <- <-]. reflexivity.
  - destruct (heap w !! p); [|done]. intros [= <- <-]. split; [done|]. apply delete_subseteq.
Qed.

Lemma load_only_frees p : preserves only_frees (load p).
Proof.
  intros w a w'. unfold load. destruct (heap w !! p); [|done].
  intros [= <- <-]. reflexivity.
Qed.

Lemma load_cell_only_frees p i : preserves only_frees (load_cell p i).
Proof.
  apply preserves_bind; [apply _|apply load_only_frees|].
  intros [| cells | |]; try apply preserves_fault.
  destruct (cells !! i); [apply preserves_ret, _|apply preserves_fault].
Qed.

Lemma load_cmd_only_frees p : preserves only_frees (load_cmd p).
Proof.
  apply preserves_bind; [apply _|apply load_only_frees|].
  intros [| |c|]; try apply preserves_fault. apply preserves_ret, _.
Qed.

Lemma load_type_only_frees p : preserves only_frees (load_type p).
Proof.
  apply preserves_bind; [apply _|apply load_only_frees|].
  intros [| |c|t]; try apply preserves_fault; apply preserves_ret, _.
Qed.

Lemma freeStrings_loop_only_frees fuel p :
  ∀ i, preserves only_frees (freeStrings_loop fuel p i).
Proof.
  induction fuel as [|fuel IH]; intros i; [apply preserves_fault|].
  cbn [freeStrings_loop]. apply preserves_bind; [apply _|apply load_cell_only_frees|].
  intros q. apply preserves_if; [apply preserves_ret, _|].
  apply preserves_bind; [apply _|apply free_only_frees|]. intros _. apply IH.
Qed.

Lemma freeStrings_only_frees p : preserves only_frees (freeStrings p).
Proof.
  apply preserves_bind; [apply _|apply load_only_frees|].
  intros [| cells | |]; try apply preserves_fault.
  apply preserves_bind; [apply _|apply freeStrings_loop_only_frees|].
  intros _. apply free_only_frees.
Qed.

Lemma freeReqCmd_only_frees p : preserves only_frees (freeReqCmd p).
Proof.
  apply preserves_bind; [apply _|apply load_cmd_only_frees|]. intros c.
  apply preserves_bind; [apply _| |intros _].
  { apply preserves_if; [apply preserves_ret, _|apply free_only_frees]. }
  apply preserves_bind; [apply _| |intros _].
  { apply preserves_if; [apply preserves_ret, _|apply freeStrings_only_frees]. }
  apply preserves_bind; [apply _| |intros _].
  { apply preserves_if; [apply preserves_ret, _|apply freeStrings_only_frees]. }
  apply free_only_frees.
Qed.

Lemma FreeReq_only_frees p : preserves only_frees (FreeReq p).
Proof.
  apply preserves_bind; [apply _|apply load_type_only_frees|].
  intros [|]; [apply freeReqCmd_only_frees|apply free_only_frees].
Qed.

(** Property X1.  Whatever [p] points to, a call of [FreeReq] that returns
    has only removed blocks from the heap: it allocates nothing, changes no
    block that stays, writes no diagnostic, and leaves the companion
    socket, the open descriptors and the control stream as they were. *)
Theorem FreeReq_removes_blocks_only (p : addr) (w w' : world) :
  FreeReq p w = Some ((), w') →
  heap w' ⊆ heap w ∧
  stderr w' = stderr w ∧ FdTubeFd w' = FdTubeFd w ∧
  open_fds w' = open_fds w ∧ TubeFile w' = TubeFile w.
Proof.
  intros Hrun. destruct (FreeReq_only_frees p w () w' Hrun) as [-> Hsub].
  by split_and!.
Qed.

(** ** What the decoding path leaves alone *)

Create HintDb pres discriminated.

Lemma only_frees_io_grows {A} (m : M A) : preserves only_frees m → preserves io_grows m.
Proof.
  apply preserves_weaken. intros w w' [-> _]. by split_and!.
Qed.

Lemma heap_only_preserves_io_grows {A} (m : M A) :
  preserves heap_only m → preserves io_grows m.
Proof. apply preserves_weaken, heap_only_io_grows. Qed.

Lemma fprintf_stderr_io_grows s : preserves io_grows (fprintf_stderr s).
Proof. intros w a w' [= <- <-]. split_and!; [by apply prefix_app_r|done..]. Qed.

Lemma recvmsg_io_grows : preserves io_grows recvmsg.
Proof.
  intros w a w'. unfold recvmsg. destruct (FdTubeFd w) as [|r q] eqn:E.
  - intros [= <- <-]. reflexivity.
  - intros [= <- <-]. cbn. split_and!; [done| |rewrite E; by apply suffix_cons_r].
    case_decide; [by apply prefix_app_r|done].
Qed.

#[local] Hint Resolve fprintf_stderr_io_grows recvmsg_io_grows : pres.
#[local] Hint Extern 1 (preserves io_grows (malloc _)) =>
  apply heap_only_preserves_io_grows, malloc_heap_only : pres.
#[local] Hint Extern 1 (preserves io_grows (strdup _)) =>
  apply heap_only_preserves_io_grows, malloc_heap_only : pres.
#[local] Hint Extern 1 (preserves io_grows (alloc_ptrs _)) =>
  apply heap_only_preserves_io_grows, malloc_heap_only : pres.
#[local] Hint Extern 1 (preserves io_grows newReqCmd) =>
  apply heap_only_preserves_io_grows, malloc_heap_only : pres.
#[local] Hint Extern 1 (preserves io_grows newReqExit) =>
  apply heap_only_preserves_io_grows, malloc_heap_only : pres.
#[local] Hint Extern 1 (preserves io_grows (store _ _)) =>
  apply heap_only_preserves_io_grows, store_heap_only : pres.
#[local] Hint Extern 1 (preserves io_grows (load _)) =>
  apply only_frees_io_grows, load_only_frees : pres.
#[local] Hint Extern 1 (preserves io_grows (load_cmd _)) =>
  apply only_frees_io_grows, load_cmd_only_frees : pres.
#[local] Hint Extern 1 (preserves io_grows (freeStrings _)) =>
  apply only_frees_io_grows, freeStrings_only_frees : pres.
#[local] Hint Extern 1 (preserves io_grows (freeReqCmd _)) =>
  apply only_frees_io_grows, freeReqCmd_only_frees : pres.

(** One step along the structure of a computation. *)
Ltac pres_step :=
  lazymatch goal with
  | |- preserves _ (_ ≫= _) => apply preserves_bind; [apply _| |intros ?]
  | |- preserves _ (mret _) => apply preserves_ret, _
  | |- preserves _ fault => apply preserves_fault
  | |- preserves _ (if decide _ then _ else _) => apply preserves_if
  | |- preserves _ (if ?b then _ else _) => destruct b
  | |- preserves _ (match ?x with _ => _ end) => destruct x
  | |- preserves _ (let _ := _ in _) => cbv zeta
  end.

Ltac pres := repeat (first [solve [eauto with pres] | pres_step]).

Lemma store_cell_io_grows p i v : preserves io_grows (store_cell p i v).
Proof. unfold store_cell. pres. Qed.

Lemma update_cmd_io_grows p f : preserves io_grows (update_cmd p f).
Proof. unfold update_cmd. pres. Qed.

#[local] Hint Resolve store_cell_io_grows update_cmd_io_grows : pres.

Lemma loadArgv_loop_io_grows args a : ∀ i, preserves io_grows (loadArgv_loop args a i).
Proof.
  induction args as [|arg args IH]; intros i; cbn [loadArgv_loop]; pres.
Qed.

Lemma loadArgv_io_grows root : preserves io_grows (loadArgv root).
Proof. unfold loadArgv. pres. apply loadArgv_loop_io_grows. Qed.

Lemma loadEnvp_loop_io_grows members e : ∀ i, preserves io_grows (loadEnvp_loop members e i).
Proof.
  induction members as [|[key value] members IH]; intros i; cbn [loadEnvp_loop]; pres.
Qed.

Lemma loadEnvp_io_grows root : preserves io_grows (loadEnvp root).
Proof. unfold loadEnvp. pres. apply loadEnvp_loop_io_grows. Qed.

Lemma recvFd_io_grows : preserves io_grows recvFd.
Proof. unfold recvFd, Check_1. pres. Qed.

#[local] Hint Resolve loadArgv_io_grows loadEnvp_io_grows recvFd_io_grows : pres.

Lemma recvFds_io_grows cmd : preserves io_grows (recvFds cmd).
Proof. unfold recvFds. pres. Qed.

Lemma json_unpack_ex_Cmd_io_grows root cmd : preserves io_grows (json_unpack_ex_Cmd root cmd).
Proof. unfold json_unpack_ex_Cmd. pres. Qed.

#[local] Hint Resolve recvFds_io_grows json_unpack_ex_Cmd_io_grows : pres.

Lemma loadReqCmd_io_grows root : preserves io_grows (loadReqCmd root).
Proof. unfold loadReqCmd. pres. Qed.

#[local] Hint Resolve loadReqCmd_io_grows : pres.

Lemma loadReq_io_grows root : preserves io_grows (loadReq root).
Proof. unfold loadReq. pres. Qed.

#[local] Hint Resolve loadReq_io_grows : pres.

Lemma RecvReq_io_grows json_loadf : preserves io_grows (RecvReq json_loadf).
Proof.
  unfold RecvReq. pres.
  - intros w0 x w1 [= <- <-]. reflexivity.
  - intros w0 x w1. unfold json_loadf_TubeFile. destruct (json_loadf (TubeFile w0)).
    intros [= <- <-]. by split_and!.
Qed.

(** Property X2.  A call of [RecvReq] that returns, with any parser and in
    any world, closes no descriptor and takes nothing back: the descriptors
    that were open before the call are still open after it, in the same
    order and before those the call has received; the diagnostics written
    before the call are still there; and what is left on the companion
    socket is a tail of the messages that waited there. *)
Theorem RecvReq_never_closes_a_descriptor
    (json_loadf : FILE → FILE * (json_error_t + json))
    (w : world) (r : addr * option addr) (w' : world) :
  RecvReq json_loadf w = Some (r, w') →
  open_fds w `prefix_of` open_fds w' ∧
  stderr w `prefix_of` stderr w' ∧
  FdTubeFd w' `suffix_of` FdTubeFd w.
Proof. intros Hrun. destruct (RecvReq_io_grows json_loadf w r w' Hrun) as (? & ? & ?). done. Qed.

(** ** More on the loaders *)

Lemma run_loader_accepts l root w :
  input_ok l root = true →
  ∃ a ps h',
    run_loader l root w = Some (a, set_heap h' w) ∧
    building (heap w) h' a ps (loaded_texts l root) [NULL].
Proof.
  destruct l; cbn; intros Hok.
  - destruct (loadArgv_accepts root w Hok) as (a & ps & h' & ? & ? & _). eauto.
  - destruct (loadEnvp_accepts root w Hok) as (a & ps & h' & ? & ? & _). eauto.
Qed.

Lemma run_loader_rejects l root w :
  input_ok l root = false →
  ∃ msg, run_loader l root w = Some (NULL, set_stderr (stderr w ++ [msg]) w).
Proof. destruct l; cbn; [apply loadArgv_rejects|apply loadEnvp_rejects]. Qed.

(** Property X3.  Either loader returns on every document and in every
    world.  Its result is non-[NULL] exactly when the document has the shape
    the loader wants: an array of strings for [loadArgv], an object whose
    values are all strings for [loadEnvp].  When it returns [NULL] the heap
    is the heap on entry and exactly one diagnostic line has been written;
    when it succeeds it has written nothing. *)
Theorem loader_accepts_iff (l : loader) (root : json) (w : world) :
  ∃ a w',
    run_loader l root w = Some (a, w') ∧
    (a ≠ NULL ↔ input_ok l root = true) ∧
    (a = NULL → heap w' = heap w ∧ ∃ msg, stderr w' = stderr w ++ [msg]) ∧
    (a ≠ NULL → stderr w' = stderr w).
Proof.
  destruct (input_ok l root) eqn:Hok.
  - destruct (run_loader_accepts l root w Hok) as (a & ps & h' & Hrun & Hb).
    exists a, (set_heap h' w). pose proof (building_nonnull _ _ _ _ _ _ Hb).
    split_and!; [done|done|done|done].
  - destruct (run_loader_rejects l root w Hok) as (msg & Hrun).
    exists NULL, (set_stderr (stderr w ++ [msg]) w).
    split_and!; [done|split; [done|discriminate]| |done].
    intros _. split; [done|by exists msg].
Qed.

(** Property X4.  On a document of the wanted shape either loader returns a
    vector that reads back, up to its first [NULL] cell, as the strings of
    the input in the order of the input: the elements for [loadArgv], one
    [key=value] per member for [loadEnvp].  The call only allocates: every
    block that was live stays as it was and nothing but the heap differs. *)
Theorem loader_keeps_order (l : loader) (root : json) (w : world) :
  input_ok l root = true →
  ∃ a w',
    run_loader l root w = Some (a, w') ∧
    a ≠ NULL ∧
    read_strings (heap w') a = Some (loaded_texts l root) ∧
    heap w ⊆ heap w' ∧
    w' = set_heap (heap w') w.
Proof.
  intros Hok. destruct (run_loader_accepts l root w Hok) as (a & ps & h' & Hrun & Hb).
  exists a, (set_heap h' w). split_and!; try done.
  - by eapply building_nonnull.
  - eapply read_strings_vector, Hb.
  - apply Hb.
Qed.

(** Property X5.  For every object with a value that is not a string,
    [loadEnvp] returns [NULL], writes the line [envp value not object], and
    leaves the world otherwise as it was on entry: the array and every
    [key=value] string built before the offending member are freed. *)
Theorem loadEnvp_non_string_releases (members : list (string * json)) (w : world) :
  env_values_ok members = false →
  loadEnvp (JObject members) w
  = Some (NULL, set_stderr (stderr w ++ ["envp value not object" +:+ LF]) w).
Proof. apply loadEnvp_bad. Qed.

(** Property X6.  [freeStrings] undoes a loader: on the non-[NULL] result of
    either loader it returns and gives back the very world in which the
    loader was called. *)
Theorem loader_then_freeStrings (l : loader) (root : json) (w : world)
    (a : addr) (w' : world) :
  run_loader l root w = Some (a, w') → a ≠ NULL →
  freeStrings a w' = Some ((), w).
Proof.
  intros Hrun Hnn.
  assert (∃ ps ss, w' = set_heap (heap w') w ∧ building (heap w) (heap w') a ps ss [NULL])
    as (ps & ss & Hw & Hext & Hv).
  { destruct l; cbn in Hrun.
    - destruct (loadArgv_result _ _ _ _ Hrun Hnn) as (ps & ? & ? & _). eauto.
    - destruct (loadEnvp_result _ _ _ _ Hrun Hnn) as (ps & ? & ? & _). eauto. }
  rewrite (freeStrings_spec a ps ss [] w' Hv).
  rewrite (extends_restore _ _ _ Hext). rewrite Hw. by destruct w.
Qed.

(** Property X7.  [freeStrings] stops at the first [NULL] cell.  On an array
    whose cells before the first [NULL] point to live strings it frees those
    strings and the array, and nothing else: what the cells after that
    [NULL] point to stays live, and nothing but the heap differs. *)
Theorem freeStrings_stops_at_first_NULL (a : addr) (ps : list addr) (ss : list string)
    (rest : list addr) (w : world) :
  vector_at (heap w) a ps ss (NULL :: rest) →
  ∃ w', freeStrings a w = Some ((), w') ∧
        w' = set_heap (heap w') w ∧
        ∀ x, heap w' !! x = if decide (x ∈ a :: ps) then None else heap w !! x.
Proof.
  intros Hv. eexists. split; [by eapply freeStrings_spec|]. split; [done|].
  intros x. cbn [heap set_heap]. case_decide.
  - by apply lookup_foldr_delete.
  - by apply lookup_foldr_delete_not_elem_of.
Qed.

Lemma load_cell_inv p i q w w1 :
  load_cell p i w = Some (q, w1) →
  w1 = w ∧ ∃ cells, heap w !! p = Some (BPtrs cells) ∧ cells !! i = Some q.
Proof.
  unfold load_cell, load, mbind, M_bind.
  destruct (heap w !! p) as [[|cells| |]|]; try done.
  destruct (cells !! i) as [q'|] eqn:E; [|done]. intros [= <- <-]. eauto.
Qed.

Lemma freeStrings_loop_unterminated a cells fuel : ∀ i w,
  NULL ∉ cells →
  (heap w !! a = None ∨ heap w !! a = Some (BPtrs cells)) →
  freeStrings_loop fuel a i w = None.
Proof.
  induction fuel as [|fuel IH]; intros i w Hnn Ha; [done|].
  cbn [freeStrings_loop]. unfold mbind at 1, M_bind at 1.
  destruct (load_cell a i w) as [[q w1]|] eqn:Hload; [|done].
  apply load_cell_inv in Hload as (-> & cells' & Ha' & Hq).
  destruct Ha as [Ha|Ha]; rewrite Ha in Ha'; [done|]. simplify_eq.
  rewrite decide_False by (intros ->; apply Hnn; by eapply list_elem_of_lookup_2).
  unfold mbind at 1, M_bind at 1.
  destruct (free q w) as [[[] w1]|] eqn:Hfree; [|done].
  apply IH; [done|].
  unfold free in Hfree. destruct (decide (q = NULL)); [by simplify_eq; right|].
  destruct (heap w !! q); [|done]. simplify_eq. cbn.
  destruct (decide (q = a)) as [->|Hne].
  - left. apply lookup_delete_eq.
  - right. by rewrite lookup_delete_ne.
Qed.

(** Property X8.  [freeStrings] relies on the sentinel.  On an array with
    no [NULL] cell its loop reads the cell after the last one, which is
    undefined behaviour in C; the model has no outcome for the call. *)
Theorem freeStrings_needs_the_sentinel (a : addr) (cells : list addr) (w : world) :
  heap w !! a = Some (BPtrs cells) → NULL ∉ cells →
  freeStrings a w = None.
Proof.
  intros Ha Hnn. unfold freeStrings.
  rewrite (bind_run _ _ _ _ _ (load_live _ _ _ Ha)).
  unfold mbind, M_bind. rewrite (freeStrings_loop_unterminated a cells); [done|done|by right].
Qed.

(** ** Requests and their release *)

Lemma load_type_exit p t w :
  heap w !! p = Some (BReqExit t) → load_type p w = Some (t, w).
Proof. intros Hb. unfold load_type. by rewrite (bind_run _ _ _ _ _ (load_live _ _ _ Hb)). Qed.

(** Property X9.  When the end-of-file indicator of the control stream is
    set ([feof] holds), receiving the [Exit] request and passing it to
    [FreeReq] leaves the world exactly as it was, with any parser: the
    request is the only block allocated, and [FreeReq] frees it. *)
Theorem Exit_request_released (json_loadf : FILE → FILE * (json_error_t + json))
    (w : world) :
  feof (TubeFile w) = true →
  (r ← RecvReq json_loadf; FreeReq r.1) w = Some ((), w).
Proof.
  intros Heof. rewrite (bind_run _ _ _ _ _ (RecvReq_eof json_loadf w Heof)).
  cbn [fst]. unfold FreeReq.
  erewrite bind_run; [|apply load_type_exit; cbn; apply lookup_insert_eq].
  cbv beta iota. unfold freeReqExit.
  erewrite free_live; [|apply malloc_addr_nonnull|cbn; apply lookup_insert_eq].
  cbn. rewrite delete_insert_id by apply malloc_addr_fresh. by destruct w.
Qed.

Lemma loadReqCmd_result root w p w' :
  loadReqCmd root w = Some (p, w') → p ≠ NULL →
  ∃ c ps qs path_ args envs,
    ReqCmd_at (heap w) (heap w') p c ps qs path_ args envs ∧ fds_received c w'.
Proof.
  intros Hrun Hnn. destruct (loadReqCmd_spec root w) as (res & w1 & Hrun' & _ & Hres).
  rewrite Hrun in Hrun'. simplify_eq.
  destruct (Cmd_decode root) as [[[[[path_ args] env] ri] ro]|].
  - destruct Hres as [(-> & _)|(_ & c & ps & qs & Hat & _ & _ & _ & _ & Hfds)]; [done|].
    by exists c, ps, qs, path_, (json_string_value <$> args), (env_entry <$> env).
  - by destruct Hres as [-> _].
Qed.

Lemma FreeReq_complete h0 cmd c ps qs path_ args envs w :
  ReqCmd_at h0 (heap w) cmd c ps qs path_ args envs →
  FreeReq cmd w = Some ((), set_heap h0 w).
Proof.
  intros Hat. unfold FreeReq.
  rewrite (bind_run _ _ _ _ _ (load_type_cmd _ _ _ (pc_block _ _ _ _ _ _ _ (rc_owned _ _ _ _ _ _ _ _ _ Hat)))).
  rewrite (rc_type _ _ _ _ _ _ _ _ _ Hat).
  eapply freeReqCmd_spec, Hat.
Qed.

(** Property X10.  [FreeReq] undoes [loadReqCmd].  On the non-[NULL] result
    of [loadReqCmd] it returns and leaves the heap that [loadReqCmd] was
    called with; everything else stays as [loadReqCmd] left it, so the
    descriptors it received stay open. *)
Theorem loadReqCmd_then_FreeReq (root : json) (w : world) (p : addr) (w' : world) :
  loadReqCmd root w = Some (p, w') → p ≠ NULL →
  FreeReq p w' = Some ((), set_heap (heap w) w').
Proof.
  intros Hrun Hnn.
  destruct (loadReqCmd_result _ _ _ _ Hrun Hnn) as (c & ps & qs & path_ & args & envs & Hat & _).
  by eapply FreeReq_complete.
Qed.

(** Property X11.  A request is to be released once.  A second [FreeReq]
    on the result of [loadReqCmd] reads the released structure, which is
    undefined behaviour in C; the model has no outcome for the two calls. *)
Theorem FreeReq_twice_faults (root : json) (w : world) (p : addr) (w' : world) :
  loadReqCmd root w = Some (p, w') → p ≠ NULL →
  (FreeReq p;; FreeReq p) w' = None.
Proof.
  intros Hrun Hnn.
  destruct (loadReqCmd_result _ _ _ _ Hrun Hnn) as (c & ps & qs & path_ & args & envs & Hat & _).
  rewrite (bind_run _ _ _ _ _ (FreeReq_complete _ _ _ _ _ _ _ _ _ Hat)).
  assert (heap w !! p = None) as Hgone.
  { destruct (pc_extends _ _ _ _ _ _ _ (rc_owned _ _ _ _ _ _ _ _ _ Hat)) as (_ & _ & Hnew).
    apply Hnew. unfold footprint. set_solver. }
  unfold FreeReq, load_type, load, mbind, M_bind. cbn [heap set_heap].
  by rewrite Hgone.
Qed.

(** ** More on the receiver *)


(** Property X13.  [recvFds] takes at most one message off the companion
    socket for each descriptor that the command asks for, and when it
    returns 0 it has taken exactly one for each. *)
Theorem recvFds_one_message_per_descriptor (cmd : addr) (c : ReqCmd) (w : world) :
  heap w !! cmd = Some (BReqCmd c) →
  ∃ r w' k,
    recvFds cmd w = Some (r, w') ∧
    FdTubeFd w' = drop k (FdTubeFd w) ∧
    (k ≤ requested c)%nat ∧
    (r = 0 → k = requested c).
Proof.
  intros Hc. unfold requested.
  destruct (decide (redirInput c = 0)) as [Hi|Hi], (decide (redirOutput c = 0)) as [Ho|Ho].
  - exists 0, w, 0%nat. rewrite (recvFds_none cmd c w Hc Hi Ho).
    rewrite !decide_False by (intros H; by apply H). by split_and!.
  - eexists _, _, 1%nat. split; [exact (recvFds_output_only cmd c w Hc Hi Ho)|].
    rewrite decide_False by (intros H; by apply H). rewrite decide_True by done.
    cbn. split_and!; [by destruct (FdTubeFd w)|lia|done].
  - destruct (decide (recvFd_value (next_recvmsg w) < 0)).
    + eexists _, _, 1%nat. split; [exact (recvFds_input_failed cmd c w Hc Hi ltac:(done))|].
      rewrite decide_True by done. rewrite decide_False by (intros H; by apply H).
      cbn. split_and!; [by destruct (FdTubeFd w)|lia|done].
    + eexists _, _, 1%nat. split; [exact (recvFds_input_only cmd c w Hc Hi Ho ltac:(lia))|].
      rewrite decide_True by done. rewrite decide_False by (intros H; by apply H).
      cbn. split_and!; [by destruct (FdTubeFd w)|lia|done].
  - rewrite !decide_True by done.
    destruct (decide (recvFd_value (next_recvmsg w) < 0)).
    + eexists _, _, 1%nat. split; [exact (recvFds_input_failed cmd c w Hc Hi ltac:(done))|].
      cbn. split_and!; [by destruct (FdTubeFd w)|lia|done].
    + eexists _, _, 2%nat. split; [exact (recvFds_both cmd c w Hc Hi Ho ltac:(lia))|].
      cbn. split_and!; [by destruct (FdTubeFd w) as [|? [|? ?]]|lia|done].
Qed.

(** ** Whole commands *)

Lemma Cmd_fields_members ms path_ args env ri ro :
  ms ≡ₚ Cmd_members path_ args env ri ro →
  Cmd_fields (JObject ms)
  = Some (path_, args, env, if ri then 1 else 0, if ro then 1 else 0).
Proof.
  intros Hperm. unfold Cmd_fields, json_object_get, json_object_size.
  cbn [json_is_object json_object_members].
  assert (NoDup ms.*1) as Hnd.
  { rewrite Hperm. by apply (bool_decide_unpack _). }
  assert (∀ k v, (k, v) ∈ Cmd_members path_ args env ri ro → assoc_get ms k = Some v) as Hget.
  { intros k v Hin. apply assoc_get_NoDup; [done|]. by rewrite Hperm. }
  rewrite (Hget "Path" (JString path_)) by (unfold Cmd_members; set_solver).
  rewrite (Hget "Args" args) by (unfold Cmd_members; set_solver).
  rewrite (Hget "Env" env) by (unfold Cmd_members; set_solver).
  rewrite (Hget "RedirInput" (json_boolean ri)) by (unfold Cmd_members; set_solver).
  rewrite (Hget "RedirOutput" (json_boolean ro)) by (unfold Cmd_members; set_solver).
  assert (length ms = 5%nat) as Hlen by by rewrite Hperm.
  destruct ri, ro; cbn; by rewrite decide_True.
Qed.

Lemma Cmd_decode_members ms path_ args env ri ro :
  ms ≡ₚ Cmd_members path_ (JArray args) (JObject env) ri ro →
  forallb json_is_string args = true → env_values_ok env = true →
  Cmd_decode (JObject ms)
  = Some (path_, args, env, if ri then 1 else 0, if ro then 1 else 0).
Proof.
  intros Hperm Ha He. unfold Cmd_decode. rewrite (Cmd_fields_members _ _ _ _ _ _ Hperm).
  unfold argv_ok, envp_ok.
  cbn [json_is_array json_is_object json_array_elems json_object_members andb].
  by rewrite Ha, He.
Qed.

(** Up to the receive of the descriptors, a command that decodes has
    changed the heap only. *)
Lemma loadReqCmd_to_recv root w path_ args env ri ro :
  Cmd_decode root = Some (path_, args, env, ri, ro) →
  ∃ cmd c h1,
    cmd ≠ NULL ∧
    h1 !! cmd = Some (BReqCmd c) ∧ redirInput c = ri ∧ redirOutput c = ro ∧
    loadReqCmd root w =
      (r ← recvFds cmd;
       if decide (r ≠ 0) then freeReqCmd cmd;; mret NULL else
       p ← strdup path_;
       update_cmd cmd (set_path p);;
       mret cmd) (set_heap h1 w).
Proof.
  unfold Cmd_decode. intros Hdec.
  destruct (loadReqCmd_start root w) as (c & _ & _ & _ & _ & Hflags & ->). cbv zeta.
  destruct (Cmd_fields root) as [[[[[p ja] je] ri'] ro']|]; [|done].
  destruct (Hflags _ _ _ _ _ eq_refl) as [ERI ERO].
  destruct (argv_ok ja) eqn:Ha; [|done]. destruct (envp_ok je) eqn:He; [|done].
  cbn in Hdec. simplify_eq.
  set (cmd := malloc_addr (heap w)).
  set (w1 := set_heap (<[cmd:=BReqCmd c]> (heap w)) w).
  destruct (loadArgv_accepts ja w1 Ha) as (a & ps & h2 & Hrun2 & Hb2 & _).
  rewrite (bind_run _ _ _ _ _ Hrun2).
  assert (h2 !! cmd = Some (BReqCmd c)) as Hc2.
  { eapply lookup_weaken; [|apply Hb2]. apply lookup_insert_eq. }
  rewrite (bind_run _ _ _ _ _ (update_cmd_live cmd c (set_argv a) (set_heap h2 w1) Hc2)).
  rewrite decide_False by by eapply building_nonnull.
  cbn [heap set_heap].
  set (w3 := set_heap (<[cmd:=BReqCmd (set_argv a c)]> h2) (set_heap h2 w1)).
  destruct (loadEnvp_accepts je w3 He) as (e & qs & h4 & Hrun4 & Hb4 & _).
  rewrite (bind_run _ _ _ _ _ Hrun4).
  assert (h4 !! cmd = Some (BReqCmd (set_argv a c))) as Hc4.
  { eapply lookup_weaken; [|apply Hb4]. apply lookup_insert_eq. }
  rewrite (bind_run _ _ _ _ _ (update_cmd_live cmd _ (set_envp e) (set_heap h4 w3) Hc4)).
  rewrite decide_False by by eapply building_nonnull.
  exists cmd, (set_envp e (set_argv a c)), (<[cmd:=BReqCmd (set_envp e (set_argv a c))]> h4).
  split_and!; [apply malloc_addr_nonnull|apply lookup_insert_eq|done|done|done].
Qed.

(** Property X14.  A document with the five fields in any order, an array
    of strings for [Args], strings for the values of [Env] and both flags
    false is loaded by [loadReqCmd] without touching the companion socket,
    [stderr] or the open descriptors: it allocates only, and the command it
    returns holds the path, the arguments in their order, one [key=value]
    per member of [Env] in its order, and both flags 0. *)
Theorem loadReqCmd_without_redirection (ms : list (string * json)) (path_ : string)
    (args : list json) (env : list (string * json)) (w : world) :
  ms ≡ₚ Cmd_members path_ (JArray args) (JObject env) false false →
  forallb json_is_string args = true →
  env_values_ok env = true →
  ∃ p c w',
    loadReqCmd (JObject ms) w = Some (p, w') ∧
    p ≠ NULL ∧
    w' = set_heap (heap w') w ∧
    heap w ⊆ heap w' ∧
    heap w' !! p = Some (BReqCmd c) ∧
    heap w' !! path c = Some (BChars path_) ∧
    read_strings (heap w') (argv c) = Some (json_string_value <$> args) ∧
    read_strings (heap w') (envp c) = Some (env_entry <$> env) ∧
    redirInput c = 0 ∧ redirOutput c = 0.
Proof.
  intros Hperm Ha He.
  pose proof (Cmd_decode_members _ _ _ _ _ _ Hperm Ha He) as Hdec.
  destruct (loadReqCmd_to_recv _ w _ _ _ _ _ Hdec) as (cmd & c1 & h1 & Hcmd & Hc1 & Hi & Ho & Hrun).
  rewrite (bind_run _ _ _ _ _ (recvFds_none cmd c1 (set_heap h1 w) Hc1 Hi Ho)) in Hrun.
  rewrite decide_False in Hrun by (intros H; by apply H).
  unfold strdup in Hrun. unfold mbind at 1, M_bind at 1 in Hrun. cbn [malloc] in Hrun.
  erewrite bind_run in Hrun; cycle 1.
  { eapply (update_cmd_live cmd c1). cbn. rewrite lookup_insert_ne; [exact Hc1|].
    intros E. pose proof (malloc_addr_fresh h1) as Hf. cbn in E. by rewrite E, Hc1 in Hf. }
  destruct (loadReqCmd_spec (JObject ms) w) as (res & w' & Hrun' & _ & Hres).
  rewrite Hdec in Hres. rewrite Hrun in Hrun'. unfold mret, M_ret in Hrun'.
  destruct Hres as [(_ & _ & [?|?])|(Hnn & c & ps & qs & Hat & _ & _ & Hri & Hro & _)]; [done..|].
  exists res, c, w'. split_and!; try done.
  - by rewrite Hrun.
  - by injection Hrun' as <- <-.
  - by destruct (pc_extends _ _ _ _ _ _ _ (rc_owned _ _ _ _ _ _ _ _ _ Hat)) as (? & _).
  - apply (pc_block _ _ _ _ _ _ _ (rc_owned _ _ _ _ _ _ _ _ _ Hat)).
  - apply (rc_path _ _ _ _ _ _ _ _ _ Hat).
  - eapply read_strings_vector, (rc_argv _ _ _ _ _ _ _ _ _ Hat).
  - eapply read_strings_vector, (rc_envp _ _ _ _ _ _ _ _ _ Hat).
Qed.

Lemma recvFd_value_carried r : 0 ≤ recvFd_value r → carries_fd r ∧ recvFd_value r = recv_cmsg_data r.
Proof. unfold recvFd_value. case_decide; [done|lia]. Qed.

(** Property X15.  With both flags true and two messages that each carry a
    descriptor waiting on the companion socket, [loadReqCmd] succeeds on
    such a document: [input] is the descriptor of the first message and
    [output] that of the second, both messages are consumed, and the two
    descriptors are now open, in that order. *)
Theorem loadReqCmd_with_both_descriptors (ms : list (string * json)) (path_ : string)
    (args : list json) (env : list (string * json)) (w : world)
    (r1 r2 : recvmsg_result) (rest : list recvmsg_result) :
  ms ≡ₚ Cmd_members path_ (JArray args) (JObject env) true true →
  forallb json_is_string args = true →
  env_values_ok env = true →
  FdTubeFd w = r1 :: r2 :: rest →
  0 ≤ recvFd_value r1 → 0 ≤ recvFd_value r2 →
  ∃ p c w',
    loadReqCmd (JObject ms) w = Some (p, w') ∧
    p ≠ NULL ∧
    heap w' !! p = Some (BReqCmd c) ∧
    input c = recv_cmsg_data r1 ∧
    output c = recv_cmsg_data r2 ∧
    FdTubeFd w' = rest ∧
    open_fds w' = open_fds w ++ [recv_cmsg_data r1; recv_cmsg_data r2].
Proof.
  intros Hperm Ha He Hq H1 H2.
  pose proof (Cmd_decode_members _ _ _ _ _ _ Hperm Ha He) as Hdec.
  destruct (loadReqCmd_to_recv _ w _ _ _ _ _ Hdec) as (cmd & c1 & h1 & Hcmd & Hc1 & Hi & Ho & Hrun).
  set (w1 := set_heap h1 w) in *.
  assert (next_recvmsg w1 = r1) as Hn1 by (unfold next_recvmsg; cbn; by rewrite Hq).
  pose proof (recvFds_both cmd c1 w1 Hc1 ltac:(by rewrite Hi) ltac:(by rewrite Ho)) as Hrecv.
  rewrite Hn1 in Hrecv. specialize (Hrecv H1). cbv zeta in Hrecv.
  assert (next_recvmsg (stored cmd (set_input (recvFd_value r1) c1) w1) = r2) as Hn2.
  { unfold next_recvmsg, stored, recvFd_world. cbn. by rewrite Hq. }
  rewrite Hn2 in Hrecv. rewrite decide_False in Hrecv by lia.
  rewrite (bind_run _ _ _ _ _ Hrecv) in Hrun.
  rewrite decide_False in Hrun by (intros H; by apply H).
  unfold strdup in Hrun. unfold mbind at 1, M_bind at 1 in Hrun. cbn [malloc] in Hrun.
  erewrite bind_run in Hrun; cycle 1.
  { eapply update_cmd_live. cbn [heap set_heap stored].
    rewrite lookup_insert_ne; [apply lookup_insert_eq|].
    intros E. match type of E with malloc_addr ?h = _ =>
      pose proof (malloc_addr_fresh h) as Hf; rewrite E in Hf end.
    by rewrite lookup_insert_eq in Hf. }
  destruct (recvFd_value_carried r1 H1) as [Hcar1 E1].
  destruct (recvFd_value_carried r2 H2) as [Hcar2 E2].
  eexists _, _, _. split; [exact Hrun|].
  split_and!.
  - done.
  - cbn. apply lookup_insert_eq.
  - cbn. by rewrite E1.
  - cbn. by rewrite E2.
  - cbn. by rewrite Hq.
  - cbn. rewrite Hn1, Hn2. rewrite !decide_True by done. by rewrite <- app_assoc.
Qed.


(** ** The driver on every path *)




(** ** [printReqCmd] *)

Lemma load_string_live p s w : heap w !! p = Some (BChars s) → load_string p w = Some (s, w).
Proof. intros Hb. unfold load_string. by rewrite (bind_run _ _ _ _ _ (load_live _ _ _ Hb)). Qed.

Lemma printReqCmd_loop_spec a rest w : ∀ ps ss pre fuel,
  heap w !! a = Some (BPtrs (pre ++ ps ++ NULL :: rest)) →
  NULL ∉ ps →
  strings_in (heap w) ps ss →
  (length ps < fuel)%nat →
  printReqCmd_loop fuel a (length pre) w = Some (arg_line <$> ss, w).
Proof.
  induction ps as [|p ps IH]; intros ss pre fuel Ha Hnn Hss Hfuel;
    (destruct fuel as [|fuel]; [simpl in Hfuel; lia|]); cbn [printReqCmd_loop];
    inversion Hss as [|? s ? ss' Hp Hss']; subst.
  - rewrite (bind_run _ _ _ _ _ (load_cell_live _ _ _ NULL _ Ha (list_lookup_middle _ _ _ _ eq_refl))).
    by rewrite decide_True.
  - rewrite (bind_run _ _ _ _ _ (load_cell_live _ _ _ p _ Ha (list_lookup_middle _ _ _ _ eq_refl))).
    rewrite decide_False by (intros ->; apply Hnn; by left).
    rewrite (bind_run _ _ _ _ _ (load_string_live _ _ _ Hp)).
    specialize (IH ss' (pre ++ [p]) fuel).
    rewrite length_app in IH. cbn [length] in IH. rewrite Nat.add_1_r in IH.
    rewrite (bind_run _ _ _ _ _ (IH ltac:(by rewrite <- app_assoc)
                                    ltac:(intros ?; apply Hnn; by right) Hss'
                                    ltac:(simpl in Hfuel; lia))).
    done.
Qed.

(** Property X19.  On a command whose path is a live string and whose
    argument vector is [NULL]-terminated, [printReqCmd] writes the line
    [path: <path>], the line [args:], and then one line per argument, in
    the order of the vector, each indented by six spaces; it stops at the
    first [NULL] cell and changes nothing. *)
Theorem printReqCmd_shows_path_and_args (cmd : addr) (c : ReqCmd) (path_ : string)
    (ps : list addr) (args : list string) (rest : list addr) (w : world) :
  heap w !! cmd = Some (BReqCmd c) →
  heap w !! path c = Some (BChars path_) →
  vector_at (heap w) (argv c) ps args (NULL :: rest) →
  printReqCmd cmd w
  = Some (("path: " +:+ path_ +:+ LF) :: ("args:" +:+ LF) :: (arg_line <$> args), w).
Proof.
  intros Hc Hp [Ha _ Hnn Hss]. unfold printReqCmd.
  rewrite (bind_run _ _ _ _ _ (load_cmd_live _ _ _ Hc)).
  rewrite (bind_run _ _ _ _ _ (load_string_live _ _ _ Hp)).
  rewrite (bind_run _ _ _ _ _ (load_live _ _ _ Ha)).
  erewrite bind_run; [done|].
  apply (printReqCmd_loop_spec (argv c) rest w ps args []); [done| |done|].
  - intros ?. apply Hnn. by right.
  - rewrite length_app. simpl. lia.
Qed.

(** ** Concrete runs of the further properties *)

(** Property X1 on the command of [world_cmd]. *)
Lemma FreeReq_removes_blocks_only_witness :
  FreeReq 1%nat world_cmd = Some ((), set_heap ∅ world_cmd) ∧
  heap (set_heap ∅ world_cmd) ⊆ heap world_cmd ∧
  stderr (set_heap ∅ world_cmd) = stderr world_cmd ∧
  FdTubeFd (set_heap ∅ world_cmd) = FdTubeFd world_cmd ∧
  open_fds (set_heap ∅ world_cmd) = open_fds world_cmd ∧
  TubeFile (set_heap ∅ world_cmd) = TubeFile world_cmd.
Proof.
  assert (FreeReq 1%nat world_cmd = Some ((), set_heap ∅ world_cmd)) as Hrun
    by (vm_compute; reflexivity).
  split; [exact Hrun|].
  exact (FreeReq_removes_blocks_only 1%nat world_cmd (set_heap ∅ world_cmd) Hrun).
Defined.

(** Property X2 on a request that receives the descriptors 7 and 8. *)
Lemma RecvReq_never_closes_a_descriptor_witness :
  ∃ r w',
    RecvReq (one_request doc_both) world_fds = Some (r, w') ∧
    open_fds w' = [7; 8] ∧
    open_fds world_fds `prefix_of` open_fds w' ∧
    stderr world_fds `prefix_of` stderr w' ∧
    FdTubeFd w' `suffix_of` FdTubeFd world_fds.
Proof.
  eexists _, _. split; [vm_compute; reflexivity|]. split; [reflexivity|].
  eapply (RecvReq_never_closes_a_descriptor (one_request doc_both) world_fds).
  vm_compute. reflexivity.
Defined.

(** Property X4 on an object whose members are not in alphabetical order. *)
Lemma loader_keeps_order_witness :
  input_ok Envp (JObject [("B", JString "2"); ("A", JString "1")]) = true ∧
  ∃ a w',
    run_loader Envp (JObject [("B", JString "2"); ("A", JString "1")]) world0 = Some (a, w') ∧
    a ≠ NULL ∧
    read_strings (heap w') a
    = Some (loaded_texts Envp (JObject [("B", JString "2"); ("A", JString "1")])) ∧
    heap world0 ⊆ heap w' ∧
    w' = set_heap (heap w') world0.
Proof.
  split; [reflexivity|].
  apply (loader_keeps_order Envp (JObject [("B", JString "2"); ("A", JString "1")]) world0).
  reflexivity.
Defined.

(** Property X5 on an object whose second value is a number. *)
Lemma loadEnvp_non_string_releases_witness :
  env_values_ok [("A", JString "1"); ("B", JInteger 2); ("C", JString "3")] = false ∧
  loadEnvp (JObject [("A", JString "1"); ("B", JInteger 2); ("C", JString "3")]) world0
  = Some (NULL, set_stderr (stderr world0 ++ ["envp value not object" +:+ LF]) world0).
Proof.
  split; [reflexivity|].
  apply (loadEnvp_non_string_releases
           [("A", JString "1"); ("B", JInteger 2); ("C", JString "3")] world0).
  reflexivity.
Defined.

(** Property X6 on an array of two strings. *)
Lemma loader_then_freeStrings_witness :
  run_loader Argv (JArray [JString "a"; JString "b"]) world0 = Some (1%nat, world_argv) ∧
  freeStrings 1%nat world_argv = Some ((), world0).
Proof.
  assert (run_loader Argv (JArray [JString "a"; JString "b"]) world0
          = Some (1%nat, world_argv)) as Hrun by (vm_compute; reflexivity).
  split; [exact Hrun|].
  apply (loader_then_freeStrings Argv (JArray [JString "a"; JString "b"]) world0
           1%nat world_argv Hrun).
  discriminate.
Defined.

(** The vector of [world_early_NULL] ends at its second cell. *)
Lemma world_early_NULL_vector :
  vector_at (heap world_early_NULL) 1%nat [2%nat] ["a"] [NULL; 3%nat].
Proof.
  split; [reflexivity|by apply (bool_decide_unpack _)|by apply (bool_decide_unpack _)|].
  repeat constructor.
Defined.

(** Property X7 on [world_early_NULL]: the string behind the third cell stays. *)
Lemma freeStrings_stops_at_first_NULL_witness :
  ∃ w', freeStrings 1%nat world_early_NULL = Some ((), w') ∧
        w' = set_heap (heap w') world_early_NULL ∧
        heap w' !! 1%nat = None ∧ heap w' !! 2%nat = None ∧
        heap w' !! 3%nat = Some (BChars "b").
Proof.
  destruct (freeStrings_stops_at_first_NULL 1%nat [2%nat] ["a"] [3%nat] world_early_NULL
              world_early_NULL_vector) as (w' & Hrun & Hw & Hheap).
  exists w'. split_and!; [exact Hrun|exact Hw|..].
  - by rewrite Hheap.
  - by rewrite Hheap.
  - by rewrite Hheap.
Defined.

(** Property X8 on an array of one cell. *)
Lemma freeStrings_needs_the_sentinel_witness :
  heap world_no_sentinel !! 1%nat = Some (BPtrs [2%nat]) ∧
  freeStrings 1%nat world_no_sentinel = None.
Proof.
  split; [reflexivity|].
  apply (freeStrings_needs_the_sentinel 1%nat [2%nat] world_no_sentinel); [reflexivity|].
  by apply (bool_decide_unpack _).
Defined.

(** Property X9 on a stream whose indicator is set, with a parser that
    finds nothing to read. *)
Lemma Exit_request_released_witness :
  feof (TubeFile world_eof) = true ∧
  (r ← RecvReq no_document; FreeReq r.1) world_eof = Some ((), world_eof).
Proof. split; [reflexivity|]. apply (Exit_request_released no_document world_eof). reflexivity. Defined.

(** The indicator is what property X9 rests on.  On a stream with nothing
    left to read whose indicator is still clear, [RecvReq] returns [NULL]
    with the parser's message, and [FreeReq] on that result reads through
    [NULL]: the two calls have no outcome. *)
Example RecvReq_error_then_FreeReq_faults :
  feof (TubeFile world0) = false ∧
  (r ← RecvReq no_document; FreeReq r.1) world0 = None.
Proof. split; [reflexivity|vm_compute; reflexivity]. Qed.

(** Property X10 on the document [doc_ls]. *)
Lemma loadReqCmd_then_FreeReq_witness :
  ∃ w', loadReqCmd doc_ls world0 = Some (1%nat, w') ∧
        FreeReq 1%nat w' = Some ((), set_heap (heap world0) w').
Proof.
  eexists. split; [vm_compute; reflexivity|].
  apply (loadReqCmd_then_FreeReq doc_ls world0 1%nat); [vm_compute; reflexivity|discriminate].
Defined.

(** Property X11 on the document [doc_ls]. *)
Lemma FreeReq_twice_faults_witness :
  ∃ w', loadReqCmd doc_ls world0 = Some (1%nat, w') ∧
        (FreeReq 1%nat;; FreeReq 1%nat) w' = None.
Proof.
  eexists. split; [vm_compute; reflexivity|].
  apply (FreeReq_twice_faults doc_ls world0 1%nat); [vm_compute; reflexivity|discriminate].
Defined.


(** Property X13 on the command of [world_two_fds], which asks for two descriptors. *)
Lemma recvFds_one_message_per_descriptor_witness :
  ∃ r w' k,
    recvFds 1%nat world_two_fds = Some (r, w') ∧
    FdTubeFd w' = drop k (FdTubeFd world_two_fds) ∧
    (k ≤ 2)%nat ∧
    (r = 0 → k = 2%nat).
Proof.
  exact (recvFds_one_message_per_descriptor 1%nat
           (mkReqCmd REQ_TYPE_CMD NULL NULL NULL 1 1 0 0) world_two_fds eq_refl).
Defined.

(** Property X14 on the document [doc_ls]. *)
Lemma loadReqCmd_without_redirection_witness :
  ∃ p c w',
    loadReqCmd doc_ls world0 = Some (p, w') ∧
    p ≠ NULL ∧
    heap w' !! p = Some (BReqCmd c) ∧
    heap w' !! path c = Some (BChars "/bin/ls") ∧
    read_strings (heap w') (argv c) = Some ["ls"] ∧
    read_strings (heap w') (envp c) = Some ["A=1"] ∧
    redirInput c = 0 ∧ redirOutput c = 0.
Proof.
  destruct (loadReqCmd_without_redirection
              (Cmd_members "/bin/ls" (JArray [JString "ls"]) (JObject [("A", JString "1")])
                 false false)
              "/bin/ls" [JString "ls"] [("A", JString "1")] world0)
    as (p & c & w' & Hrun & Hp & _ & _ & Hc & Hpath & Hargv & Henvp & Hri & Hro);
    [reflexivity|reflexivity|reflexivity|].
  exists p, c, w'. by split_and!.
Defined.

(** Property X15 on the document [doc_both], with the descriptors 7 and 8. *)
Lemma loadReqCmd_with_both_descriptors_witness :
  ∃ p c w',
    loadReqCmd doc_both world_fds = Some (p, w') ∧
    p ≠ NULL ∧
    heap w' !! p = Some (BReqCmd c) ∧
    input c = 7 ∧ output c = 8 ∧
    FdTubeFd w' = [] ∧
    open_fds w' = [7; 8].
Proof.
  exact (loadReqCmd_with_both_descriptors
           (Cmd_members "/bin/ls" (JArray [JString "ls"]) (JObject [("A", JString "1")])
              true true)
           "/bin/ls" [JString "ls"] [("A", JString "1")] world_fds
           (mkRecv 1 20 7) (mkRecv 1 20 8) []
           (reflexivity _) eq_refl eq_refl eq_refl
           ltac:(vm_compute; discriminate) ltac:(vm_compute; discriminate)).
Defined.


(** Property X19 on the command of [world_cmd]. *)
Lemma printReqCmd_shows_path_and_args_witness :
  printReqCmd 1%nat world_cmd
  = Some (["path: /bin/ls" +:+ LF; "args:" +:+ LF; "      ls" +:+ LF], world_cmd).
Proof.
  apply (printReqCmd_shows_path_and_args 1%nat cmd_ls "/bin/ls" [3%nat] ["ls"] [] world_cmd);
    [reflexivity|reflexivity|].
  split; [reflexivity|by apply (bool_decide_unpack _)|by apply (bool_decide_unpack _)|].
  repeat constructor.
Defined.
